(** * CollaborativeCanvas: the per-room operation log of [server/server.js]

    A shallow embedding of the Socket.IO event handlers of
    [server/server.js] (join-room, draw, clear, undo, redo, cursor,
    disconnect) as functions on an explicit server state, followed by the
    properties of the operation log: identifiers, visibility toggles,
    per-user isolation and the frame of every handler.

    Modelling conventions.
    - [roomsOperations] and [users] are JS objects used as dictionaries.
      Their own properties are a finite map keyed by strings; a read of
      [roomsOperations[room]] that finds no own property finds what [{}]
      inherits from [Object.prototype] ([read_ops]).
    - Every connection owns one closure variable [currentRoom]; the map
      [currentRoom] holds it per socket id, and a socket id is connected
      exactly when it has an entry.  Socket ids are generated by
      Socket.IO (20 characters), so none is ["__proto__"]; a read of
      [users[id]] that finds no own property finds [undefined] or an
      inherited function, whose [username] and [color] are [undefined]:
      the user list shows the fallbacks in both cases.
    - Arrays of operations are lists; [ops[i].active = v] is an in-place
      update at index [i].
    - A handler either returns ([Done]) with the new state and the
      messages it emitted, in order, or throws a [TypeError] ([Throws]).
      A join-room request whose payload is not a string is outside the
      embedding ([Unmodelled]): Socket.IO then names rooms by values and
      object identities the state does not represent.  No theorem draws
      a conclusion from such a step.
    - Numbers carried by payloads are never computed with; their carrier
      is [Q].
    - The handlers [saveSnapshot] and [requestLatest] only call
      [./drawing-state]; they read and write neither the logs nor the
      rooms and are left out. *)

From Stdlib Require QArith.
From stdpp Require Import gmap strings list fin_maps sorting.

Local Open Scope string_scope.
Set Warnings "-register-all".

(** ** JavaScript values received from clients *)

Inductive jsval : Type :=
| JUndefined
| JNull
| JBool (b : bool)
| JNum (q : QArith_base.Q)
| JStr (s : string)
| JArr (items : list jsval)
| JObj (fields : list (string * jsval)).

(** [typeof v === "number"] *)
Definition is_number (v : jsval) : bool :=
  match v with JNum _ => true | _ => false end.

(** ToBoolean, as used by [ev && ...]. *)
Definition truthy (v : jsval) : bool :=
  match v with
  | JUndefined | JNull => false
  | JBool b => b
  | JNum q => negb (QArith_base.Qeq_bool q (QArith_base.Qmake 0 1))
  | JStr s => negb (String.eqb s "")
  | JArr _ | JObj _ => true
  end.

Fixpoint assoc (k : string) (fs : list (string * jsval)) : option jsval :=
  match fs with
  | [] => None
  | (k', v) :: rest => if String.eqb k k' then Some v else assoc k rest
  end.

(** The property read [v.k], for the property names the server reads
    ([prevX], [prevY], [x], [y], [color], [size], [tool], [clientId]).
    Reading a property of [undefined] or [null] throws ([None]); primitives
    and arrays have none of these names. *)
Definition getProp (v : jsval) (k : string) : option jsval :=
  match v with
  | JUndefined | JNull => None
  | JObj fs => Some (default JUndefined (assoc k fs))
  | _ => Some JUndefined
  end.

(** [v.k] where the read is known not to throw. *)
Definition field (v : jsval) (k : string) : jsval :=
  default JUndefined (getProp v k).

(** Truthiness of [currentRoom]: [null] and the empty string are falsy. *)
Definition room_truthy (cur : option string) : bool :=
  match cur with
  | None => false
  | Some r => negb (String.eqb r "")
  end.

(** ** Operations *)

Module Op.
Record t : Type := mk {
  userId : string;
  prevX : jsval;
  prevY : jsval;
  x : jsval;
  y : jsval;
  color : jsval;
  size : jsval;
  tool : jsval;
  opId : nat;
  active : bool;
  clientId : jsval
}.

(** [op.active = b] *)
Definition set_active (b : bool) (o : t) : t :=
  mk (userId o) (prevX o) (prevY o) (x o) (y o) (color o) (size o)
     (tool o) (opId o) b (clientId o).
End Op.

(** [op.userId === socket.id && op.active] *)
Definition mine_active (sid : string) (o : Op.t) : bool :=
  bool_decide (Op.userId o = sid) && Op.active o.

(** [op.userId === socket.id && !op.active] *)
Definition mine_inactive (sid : string) (o : Op.t) : bool :=
  bool_decide (Op.userId o = sid) && negb (Op.active o).

(** ** What [roomsOperations[room]] evaluates to

    [roomsOperations] is created as [{}], so a name that is not an own
    property is looked up in [Object.prototype]: the built-in methods,
    which are functions whose [length] is their number of parameters, and
    the accessor [__proto__], which yields [Object.prototype] itself
    (ECMAScript, sections "Properties of the Object Prototype Object" and
    "Additional Properties of the Object.prototype Object").  Only logs
    are ever assigned, and only under a name whose read gave [undefined]. *)

Inductive inherited : Type :=
| IFunction (arity : nat)
| IObjectPrototype.

Definition object_prototype (name : string) : option inherited :=
  if String.eqb name "constructor" then Some (IFunction 1)
  else if String.eqb name "hasOwnProperty" then Some (IFunction 1)
  else if String.eqb name "isPrototypeOf" then Some (IFunction 1)
  else if String.eqb name "propertyIsEnumerable" then Some (IFunction 1)
  else if String.eqb name "toLocaleString" then Some (IFunction 0)
  else if String.eqb name "toString" then Some (IFunction 0)
  else if String.eqb name "valueOf" then Some (IFunction 0)
  else if String.eqb name "__defineGetter__" then Some (IFunction 2)
  else if String.eqb name "__defineSetter__" then Some (IFunction 2)
  else if String.eqb name "__lookupGetter__" then Some (IFunction 1)
  else if String.eqb name "__lookupSetter__" then Some (IFunction 1)
  else if String.eqb name "__proto__" then Some IObjectPrototype
  else None.

(** [v.length] of an inherited value: the arity of a function, [undefined]
    ([None]) for [Object.prototype]. *)
Definition inherited_length (v : inherited) : option nat :=
  match v with
  | IFunction n => Some n
  | IObjectPrototype => None
  end.

Inductive ops_value : Type :=
| OpsArray (ops : list Op.t)
| OpsInherited (v : inherited)
| OpsUndefined.

(** [roomsOperations[room]], given the own properties. *)
Definition read_ops (own : gmap string (list Op.t)) (room : string)
    : ops_value :=
  match own !! room with
  | Some ops => OpsArray ops
  | None =>
      match object_prototype room with
      | Some v => OpsInherited v
      | None => OpsUndefined
      end
  end.

(** ** Messages *)

Record user : Type := mk_user { username : string; ucolor : string }.

Record user_entry : Type :=
  mk_entry { e_id : string; e_username : string; e_color : string }.

Inductive message : Type :=
| CanvasHistory (v : ops_value)
| UserInfo (u : option user)
| UserList (l : list user_entry)
| DrawMsg (o : Op.t)
| ClearUserStrokes (ops : list nat)
| UndoOp (opId : nat)
| RedoOp (opId : nat)
| CursorMsg (id : string) (x y color : jsval)
| RemoveCursor (id : string).

(** [socket.emit] reaches one socket; [io.to(room).emit] reaches every
    socket that is in the Socket.IO room when the message is emitted. *)
Inductive emit : Type :=
| ToSocket (id : string) (m : message)
| ToRoom (room : string) (targets : gset string) (m : message).

Inductive outcome (A : Type) : Type :=
| Done (a : A)
| Throws
| Unmodelled.
Arguments Done {A} a.
Arguments Throws {A}.
Arguments Unmodelled {A}.

(** The value a computation returned, or [d] if it did not return. *)
Definition returned {A : Type} (r : outcome A) (d : A) : A :=
  match r with Done a => a | Throws | Unmodelled => d end.

Definition is_done {A : Type} (r : outcome A) : bool :=
  match r with Done _ => true | Throws | Unmodelled => false end.

(** ** The room store

    [server.js] calls [roomStore.addClient], [roomStore.removeClient] and
    [roomStore.listClients] of [./rooms], which keeps its own state.  The
    handlers are defined over any implementation of these three calls; a
    client [{ id }] is represented by its id. *)
Class RoomStore : Type := {
  rs_state : Type;
  rs_init : rs_state;
  addClient : string → string → rs_state → rs_state;
  removeClient : string → string → rs_state → rs_state;
  listClients : string → rs_state → list string
}.

(** Modelled from the spec: [server/rooms.js] is missing; this is the
    RoomRegistry of the specification.  [join] adds the session to the
    room's member set after removing it from any other room, [leave]
    removes it (nothing happens if it is absent), [members] is the current
    member set. *)
Module Registry.
Definition join (room sid : string) (reg : gmap string (gset string))
  : gmap string (gset string) :=
  <[room := {[sid]} ∪ default ∅ (reg !! room)]>
    ((λ s : gset string, s ∖ {[sid]}) <$> reg).

Definition leave (room sid : string) (reg : gmap string (gset string))
  : gmap string (gset string) :=
  match reg !! room with
  | Some s => <[room := s ∖ {[sid]}]> reg
  | None => reg
  end.

Definition members (room : string) (reg : gmap string (gset string))
  : list string :=
  elements (default ∅ (reg !! room)).
End Registry.

(** The room store used to run the handlers on concrete event sequences.
    The theorems below hold for every room store. *)
Definition spec_registry : RoomStore :=
  {| rs_state := gmap string (gset string);
     rs_init := ∅;
     addClient := Registry.join;
     removeClient := Registry.leave;
     listClients := Registry.members |}.

(** ** Socket.IO rooms

    [socket.join(room)] and [socket.leave(room)] of the Socket.IO adapter:
    a map from room names to the set of socket ids in the room.  On
    connection Socket.IO puts every socket in the room named by its own
    id. *)
Definition sio_members (room : string) (ad : gmap string (gset string))
  : gset string :=
  default ∅ (ad !! room).

Definition sio_join (sid room : string) (ad : gmap string (gset string))
  : gmap string (gset string) :=
  <[room := {[sid]} ∪ sio_members room ad]> ad.

Definition sio_leave (sid room : string) (ad : gmap string (gset string))
  : gmap string (gset string) :=
  match ad !! room with
  | Some s => <[room := s ∖ {[sid]}]> ad
  | None => ad
  end.

(** On disconnect Socket.IO removes the socket from all its rooms before
    the ["disconnect"] listeners run. *)
Definition sio_leave_all (sid : string) (ad : gmap string (gset string))
  : gmap string (gset string) :=
  (λ s : gset string, s ∖ {[sid]}) <$> ad.

(** ** Server state and handlers *)

Section Server.
Context `{RS : RoomStore}.

Record server : Type := mk_server {
  roomsOperations : gmap string (list Op.t);
  users : gmap string user;
  currentRoom : gmap string (option string);
  sio_rooms : gmap string (gset string);
  roomStore : rs_state
}.

Definition initial : server := mk_server ∅ ∅ ∅ ∅ rs_init.

(** The log of a room, empty when the room has none. *)
Definition log (st : server) (room : string) : list Op.t :=
  default [] (roomsOperations st !! room).

Definition set_ops (room : string) (ops : list Op.t) (st : server) : server :=
  mk_server (<[room := ops]> (roomsOperations st)) (users st)
            (currentRoom st) (sio_rooms st) (roomStore st).

(** [users[id]?.username || 'Unknown'] and [users[id]?.color || '#888888'] *)
Definition entry_of (us : gmap string user) (id : string) : user_entry :=
  let name := match us !! id with
              | Some u => if String.eqb (username u) "" then "Unknown"
                          else username u
              | None => "Unknown"
              end in
  let col := match us !! id with
             | Some u => if String.eqb (ucolor u) "" then "#888888"
                         else ucolor u
             | None => "#888888"
             end in
  mk_entry id name col.

Definition broadcastUserList (room : string) (st : server) : emit :=
  ToRoom room (sio_members room (sio_rooms st))
         (UserList (entry_of (users st) <$> listClients room (roomStore st))).

(** [io.on("connection")]: Socket.IO has put the socket in the room named
    by its id; a username and a colour are drawn at random, and the request
    carries the values drawn. *)
Definition on_connection (sid uname col : string) (st : server) : server :=
  mk_server (roomsOperations st) (<[sid := mk_user uname col]> (users st))
            (<[sid := None]> (currentRoom st))
            (sio_join sid sid (sio_rooms st)) (roomStore st).

(** [socket.on("join-room")] *)
Definition on_join (sid : string) (cur : option string) (room : string)
    (st : server) : outcome (server * list emit) :=
  let ad1 := match cur with
             | Some old => if room_truthy cur then sio_leave sid old (sio_rooms st)
                           else sio_rooms st
             | None => sio_rooms st
             end in
  let ad2 := sio_join sid room ad1 in
  let rs := addClient room sid (roomStore st) in
  let ro := match read_ops (roomsOperations st) room with
            | OpsUndefined => <[room := []]> (roomsOperations st)
            | OpsArray _ | OpsInherited _ => roomsOperations st
            end in
  let st' := mk_server ro (users st) (<[sid := Some room]> (currentRoom st))
                       ad2 rs in
  match users st !! sid with
  | Some _ =>
      Done (st', [ToSocket sid (CanvasHistory (read_ops ro room));
                  ToSocket sid (UserInfo (users st !! sid));
                  broadcastUserList room st'])
  | None => Throws
  end.

(** The guard of the draw handler on its payload. *)
Definition valid_segment (ev : jsval) : bool :=
  truthy ev && is_number (field ev "prevX") && is_number (field ev "prevY")
  && is_number (field ev "x") && is_number (field ev "y").

Definition new_op (sid : string) (ev : jsval) (n : nat) : Op.t :=
  Op.mk sid (field ev "prevX") (field ev "prevY") (field ev "x")
        (field ev "y") (field ev "color") (field ev "size")
        (field ev "tool") n true (field ev "clientId").

(** [socket.on("draw")].  An inherited value has no [push], and
    [undefined] has no [length]: both reads throw. *)
Definition on_draw (sid : string) (cur : option string) (ev : jsval)
    (st : server) : outcome (server * list emit) :=
  match cur with
  | Some room =>
      if room_truthy cur then
        if valid_segment ev then
          match read_ops (roomsOperations st) room with
          | OpsArray ops =>
              let o := new_op sid ev (length ops) in
              Done (set_ops room (ops ++ [o]) st,
                    [ToRoom room (sio_members room (sio_rooms st)) (DrawMsg o)])
          | OpsInherited _ => Throws
          | OpsUndefined => Throws
          end
        else Done (st, [])
      else Done (st, [])
  | None => Done (st, [])
  end.

(** [ops.forEach(...)] of the clear handler; [removed] accumulates the
    pushed ids. *)
Fixpoint clear_loop (sid : string) (ops : list Op.t) (removed : list nat)
    : list Op.t * list nat :=
  match ops with
  | [] => ([], removed)
  | o :: rest =>
      if mine_active sid o then
        let '(rest', removed') := clear_loop sid rest (removed ++ [Op.opId o]) in
        (Op.set_active false o :: rest', removed')
      else
        let '(rest', removed') := clear_loop sid rest removed in
        (o :: rest', removed')
  end.

(** [socket.on("clear")].  An inherited value has no [forEach]. *)
Definition on_clear (sid : string) (cur : option string) (st : server)
    : outcome (server * list emit) :=
  match cur with
  | Some room =>
      if room_truthy cur then
        match read_ops (roomsOperations st) room with
        | OpsArray ops =>
            let '(ops', removed) := clear_loop sid ops [] in
            Done (set_ops room ops' st,
                  [ToRoom room (sio_members room (sio_rooms st))
                          (ClearUserStrokes removed)])
        | OpsInherited _ => Throws
        | OpsUndefined => Throws
        end
      else Done (st, [])
  | None => Done (st, [])
  end.

(** The loop of the undo handler: [k] is [i + 1], the loop runs while
    [i >= 0]. *)
Fixpoint undo_loop (sid room : string) (targets : gset string)
    (ops : list Op.t) (k : nat) : outcome (list Op.t * list emit) :=
  match k with
  | 0 => Done (ops, [])
  | S i =>
      match ops !! i with
      | Some o =>
          if mine_active sid o then
            Done (<[i := Op.set_active false o]> ops,
                  [ToRoom room targets (UndoOp (Op.opId o))])
          else undo_loop sid room targets ops i
      | None => Throws
      end
  end.

(** Both scans on an inherited value [ops]: it has no elements, so the
    first iteration, if there is one, reads [ops[i].userId] of [undefined]
    and throws.  There is an iteration exactly when [ops.length] is a
    positive number ([ops.length - 1 >= 0] for undo, [0 < ops.length] for
    redo; both are false when [ops.length] is [undefined]). *)
Definition scan_inherited {A : Type} (v : inherited) (a : A) : outcome A :=
  match inherited_length v with
  | Some (S _) => Throws
  | Some 0 | None => Done a
  end.

(** [socket.on("undo")] *)
Definition on_undo (sid : string) (cur : option string) (st : server)
    : outcome (server * list emit) :=
  match cur with
  | Some room =>
      if room_truthy cur then
        match read_ops (roomsOperations st) room with
        | OpsArray ops =>
            match undo_loop sid room (sio_members room (sio_rooms st)) ops
                            (length ops) with
            | Done (ops', out) => Done (set_ops room ops' st, out)
            | Throws => Throws
            | Unmodelled => Unmodelled
            end
        | OpsInherited v => scan_inherited v (st, [])
        | OpsUndefined => Throws
        end
      else Done (st, [])
  | None => Done (st, [])
  end.

(** The loop of the redo handler from index [i]; [n] bounds the number of
    iterations left ([ops.length - i]). *)
Fixpoint redo_loop (sid room : string) (targets : gset string)
    (ops : list Op.t) (n i : nat) : outcome (list Op.t * list emit) :=
  match n with
  | 0 => Done (ops, [])
  | S n' =>
      match ops !! i with
      | Some o =>
          if mine_inactive sid o then
            Done (<[i := Op.set_active true o]> ops,
                  [ToRoom room targets (RedoOp (Op.opId o))])
          else redo_loop sid room targets ops n' (S i)
      | None => Throws
      end
  end.

(** [socket.on("redo")] *)
Definition on_redo (sid : string) (cur : option string) (st : server)
    : outcome (server * list emit) :=
  match cur with
  | Some room =>
      if room_truthy cur then
        match read_ops (roomsOperations st) room with
        | OpsArray ops =>
            match redo_loop sid room (sio_members room (sio_rooms st)) ops
                            (length ops) 0 with
            | Done (ops', out) => Done (set_ops room ops' st, out)
            | Throws => Throws
            | Unmodelled => Unmodelled
            end
        | OpsInherited v => scan_inherited v (st, [])
        | OpsUndefined => Throws
        end
      else Done (st, [])
  | None => Done (st, [])
  end.

(** [socket.on("cursor")] *)
Definition on_cursor (sid : string) (cur : option string) (pos : jsval)
    (st : server) : outcome (server * list emit) :=
  match cur with
  | Some room =>
      if room_truthy cur then
        match getProp pos "x", getProp pos "y", getProp pos "color" with
        | Some px, Some py, Some pc =>
            Done (st, [ToRoom room (sio_members room (sio_rooms st))
                              (CursorMsg sid px py pc)])
        | _, _, _ => Throws
        end
      else Done (st, [])
  | None => Done (st, [])
  end.

(** [socket.on("disconnect")]; the connection and its [currentRoom] are
    gone afterwards. *)
Definition on_disconnect (sid : string) (cur : option string) (st : server)
    : outcome (server * list emit) :=
  let ad := sio_leave_all sid (sio_rooms st) in
  match cur with
  | Some room =>
      if room_truthy cur then
        let st1 := mk_server (roomsOperations st) (users st) (currentRoom st)
                             ad (removeClient room sid (roomStore st)) in
        Done (mk_server (roomsOperations st) (delete sid (users st))
                        (delete sid (currentRoom st)) ad (roomStore st1),
              [ToRoom room (sio_members room ad) (RemoveCursor sid);
               broadcastUserList room st1])
      else
        Done (mk_server (roomsOperations st) (delete sid (users st))
                        (delete sid (currentRoom st)) ad (roomStore st), [])
  | None =>
      Done (mk_server (roomsOperations st) (delete sid (users st))
                      (delete sid (currentRoom st)) ad (roomStore st), [])
  end.

(** ** Requests and the dispatch loop *)

Inductive request : Type :=
| Connect (uname col : string)
| JoinRoom (room : jsval)
| Draw (ev : jsval)
| Clear
| Undo
| Redo
| Cursor (pos : jsval)
| Disconnect.

(** One event handled to completion.  A connection event for an id that
    is already connected, and any other event for an id that is not, does
    not occur; both leave the state as it is.  The join-room handler is
    described for a payload that is a string. *)
Definition handle (sid : string) (rq : request) (st : server)
    : outcome (server * list emit) :=
  match currentRoom st !! sid, rq with
  | None, Connect uname col => Done (on_connection sid uname col st, [])
  | None, _ => Done (st, [])
  | Some _, Connect _ _ => Done (st, [])
  | Some cur, JoinRoom (JStr room) => on_join sid cur room st
  | Some _, JoinRoom _ => Unmodelled
  | Some cur, Draw ev => on_draw sid cur ev st
  | Some cur, Clear => on_clear sid cur st
  | Some cur, Undo => on_undo sid cur st
  | Some cur, Redo => on_redo sid cur st
  | Some cur, Cursor pos => on_cursor sid cur pos st
  | Some cur, Disconnect => on_disconnect sid cur st
  end.

(** A sequence of events, each handled to completion before the next.
    The run ends at the first request whose handler throws: no listener
    catches the exception. *)
Fixpoint run (evs : list (string * request)) (st : server)
    : outcome (server * list emit) :=
  match evs with
  | [] => Done (st, [])
  | (sid, rq) :: rest =>
      match handle sid rq st with
      | Done (st1, out1) =>
          match run rest st1 with
          | Done (st2, out2) => Done (st2, (out1 ++ out2)%list)
          | Throws => Throws
          | Unmodelled => Unmodelled
          end
      | Throws => Throws
      | Unmodelled => Unmodelled
      end
  end.

(** The states the server reaches from start-up by handling requests. *)
Inductive reachable : server → Prop :=
| reach_initial : reachable initial
| reach_step st sid rq st' out :
    reachable st → handle sid rq st = Done (st', out) → reachable st'.

End Server.

Local Close Scope string_scope.

(** ** What the handlers do to one log, stated without the loops *)

(** The effect of the clear handler on one operation. *)
Definition deactivate_mine (sid : string) (o : Op.t) : Op.t :=
  if mine_active sid o then Op.set_active false o else o.

(** Two operations that agree on every field but [active]. *)
Definition same_fixed (o o' : Op.t) : Prop :=
  Op.userId o' = Op.userId o ∧ Op.opId o' = Op.opId o ∧
  Op.prevX o' = Op.prevX o ∧ Op.prevY o' = Op.prevY o ∧
  Op.x o' = Op.x o ∧ Op.y o' = Op.y o ∧
  Op.color o' = Op.color o ∧ Op.size o' = Op.size o ∧
  Op.tool o' = Op.tool o ∧ Op.clientId o' = Op.clientId o.

(** The ids of a log are [0, 1, ..., n-1] in log order. *)
Definition gapless (ops : list Op.t) : Prop :=
  Op.opId <$> ops = seq 0 (length ops).

(** The changes one request of session [sid] can make to a log. *)
Inductive log_step (sid : string) : list Op.t → list Op.t → Prop :=
| ls_same l : log_step sid l l
| ls_append l o :
    Op.userId o = sid → Op.opId o = length l → Op.active o = true →
    log_step sid l (l ++ [o])
| ls_toggle l i o b :
    l !! i = Some o → Op.userId o = sid →
    log_step sid l (<[i := Op.set_active b o]> l)
| ls_clear l : log_step sid l (deactivate_mine sid <$> l).

(** ** Invariants of reachable states *)

Section Invariants.
Context `{RS : RoomStore}.

(** What every reachable state satisfies: for a room some connection is
    in, [roomsOperations[room]] is not [undefined]; a connected socket has
    a [users] entry; the ids of every log are gapless; a socket is in the
    Socket.IO room its [currentRoom] names. *)
Record wf (st : server) : Prop := mk_wf {
  wf_log : ∀ sid r,
    currentRoom st !! sid = Some (Some r) →
    read_ops (roomsOperations st) r ≠ OpsUndefined;
  wf_users : ∀ sid,
    is_Some (currentRoom st !! sid) → is_Some (users st !! sid);
  wf_ids : ∀ r ops, roomsOperations st !! r = Some ops → gapless ops;
  wf_member : ∀ sid r,
    currentRoom st !! sid = Some (Some r) → sid ∈ sio_members r (sio_rooms st)
}.

(** The session [sid] is joined to [room], as every handler checks it:
    its [currentRoom] holds the (truthy) name [room]. *)
Definition joined (st : server) (sid room : string) : Prop :=
  currentRoom st !! sid = Some (Some room) ∧ room ≠ String.EmptyString.

(** The room [sid] is in, if any, has a name that [Object.prototype] does
    not define. *)
Definition plain_room (st : server) (sid : string) : Prop :=
  ∀ room, currentRoom st !! sid = Some (Some room) →
          object_prototype room = None.

(** The payload of the request, if it is a join-room request, is a
    string. *)
Definition string_payload (rq : request) : Prop :=
  ∀ v, rq = JoinRoom v → ∃ room, v = JStr room.

(** The state is reached from start-up by handling requests whose
    join-room payloads are strings. *)
Definition reached_with_string_rooms (st : server) : Prop :=
  ∃ evs out,
    Forall (λ e, string_payload e.2) evs ∧ run evs initial = Done (st, out).

(** The requests that act on the drawing. *)
Definition drawing_request (rq : request) : Prop :=
  match rq with
  | Draw _ | Undo | Redo | Clear => True
  | _ => False
  end.

(** A cursor request whose payload is [undefined] or [null] makes the
    handler throw when it reads [pos.x]. *)
Definition cursor_nullish (rq : request) : Prop :=
  match rq with
  | Cursor JUndefined | Cursor JNull => True
  | _ => False
  end.

(** The fields of a draw payload that make up the geometry of an
    operation, and the four the draw handler checks. *)
Definition geometry_fields : list string :=
  ["prevX"; "prevY"; "x"; "y"; "color"; "size"; "tool"]%string.

Definition coordinate_fields : list string :=
  ["prevX"; "prevY"; "x"; "y"]%string.

(** One of the listed fields is missing from the payload. *)
Definition lacks_field (fields : list string) (ev : jsval) : Prop :=
  ∃ k, k ∈ fields ∧ field ev k = JUndefined.

(** Every listed field is present in the payload and is a number. *)
Definition all_numbers (fields : list string) (ev : jsval) : Prop :=
  ∀ k, k ∈ fields → ∃ q, getProp ev k = Some (JNum q).

(** The draw request is dropped: nothing appended, nothing emitted. *)
Definition dropped (sid : string) (ev : jsval) (st : server) : Prop :=
  handle sid (Draw ev) st = Done (st, []).

(** A draw request with a missing geometry field is dropped. *)
Definition drops_incomplete_geometry (st : server) (sid : string)
    (ev : jsval) : Prop :=
  lacks_field geometry_fields ev → dropped sid ev st.

(** The cursor position is relayed to the members of the room other than
    the sender, and the state stays as it is. *)
Definition relays_to_others (st : server) (sid room : string)
    (pos : jsval) : Prop :=
  ∃ m, handle sid (Cursor pos) st =
         Done (st, [ToRoom room (sio_members room (sio_rooms st) ∖ {[sid]}) m]).

(** The session is in at most one Socket.IO room, the room Socket.IO keeps
    for every socket under the socket's own id not counted. *)
Definition in_at_most_one_room (st : server) (sid : string) : Prop :=
  ∀ r1 r2, r1 ≠ sid → r2 ≠ sid →
           sid ∈ sio_members r1 (sio_rooms st) →
           sid ∈ sio_members r2 (sio_rooms st) → r1 = r2.

(** Draw, then undo, then redo, all by [sid]. *)
Definition draw_undo_redo (sid : string) (ev : jsval)
    : list (string * request) :=
  [(sid, Draw ev); (sid, Undo); (sid, Redo)].

(** The round trip restores the appended operation: after the three
    requests the log holds, at the position of the append, the operation
    as it was appended (active, with the geometry and the id it got). *)
Definition round_trip_restores (st : server) (sid room : string)
    (ev : jsval) : Prop :=
  ∃ st' out,
    run (draw_undo_redo sid ev) st = Done (st', out) ∧
    log st' room !! length (log st room) =
      Some (new_op sid ev (length (log st room))).
End Invariants.

(** ** Concrete payloads and event sequences *)

Module Scenario.
Local Open Scope string_scope.

Definition num (n : Z) : jsval := JNum (QArith_base.Qmake n 1).

(** A segment with its four coordinates and nothing else. *)
Definition bare_segment : jsval :=
  JObj [("prevX", num 1); ("prevY", num 2); ("x", num 3); ("y", num 4)].

(** A complete draw payload. *)
Definition stroke : jsval :=
  JObj [("prevX", num 10); ("prevY", num 20); ("x", num 11); ("y", num 22);
        ("color", JStr "#000000"); ("size", num 5); ("tool", JStr "brush");
        ("clientId", JStr "c-1")].

Definition position : jsval :=
  JObj [("x", num 7); ("y", num 9); ("color", JStr "#4ECDC4")].

(** The state the server is in after handling [evs] from start-up. *)
Definition state_after (evs : list (string * request))
    : server (RS := spec_registry) :=
  match run evs initial with
  | Done (st, _) => st
  | Throws | Unmodelled => initial
  end.

(** Two users in one room, one stroke each. *)
Definition two_users : list (string * request) :=
  [("u1", Connect "K3V9QX2A" "#FF6B6B"); ("u2", Connect "Z81MMP0D" "#4ECDC4");
   ("u1", JoinRoom (JStr "default")); ("u2", JoinRoom (JStr "default"));
   ("u1", Draw stroke); ("u2", Draw stroke)].

(** The same, after [u1] has undone its stroke. *)
Definition one_undone : list (string * request) :=
  (two_users ++ [("u1", Undo)])%list.

(** One session in the room whose name is that of a method every object
    inherits. *)
Definition in_constructor : list (string * request) :=
  [("u1", Connect "K3V9QX2A" "#FF6B6B"); ("u1", JoinRoom (JStr "constructor"))].

(** One session that joined the room with the empty name and then
    another room. *)
Definition empty_then_default : list (string * request) :=
  [("u1", Connect "K3V9QX2A" "#FF6B6B"); ("u1", JoinRoom (JStr ""));
   ("u1", JoinRoom (JStr "default"))].
End Scenario.

(** ** What a client draws, and the client's copy of the log

    [client/canvas.js] keeps the operations it was told about in
    [window.localOps]; [client/websocket.js] routes each server message to
    the method of [CanvasApp] that updates the copy.  An operation crosses
    the wire as JSON, which drops the properties that are [undefined];
    reading them on the other side yields [undefined] again, so the client
    sees the fields the server stored. *)

(** The operations [redraw()] draws, in drawing order. *)
Definition visible (ops : list Op.t) : list Op.t :=
  filter (λ o, Op.active o = true) ops.

Module Client.
(** [typeof v === "undefined"] *)
Definition is_undefined (v : jsval) : bool :=
  match v with JUndefined => true | _ => false end.

(** [applyRemote(op)]: the server always sends an object, so the guard
    [!op || typeof op.x === "undefined"] is decided by [op.x]. *)
Definition applyRemote (o : Op.t) (localOps : list Op.t) : list Op.t :=
  if is_undefined (Op.x o) then localOps else localOps ++ [o].

(** [setFromServerHistory(ops)] *)
Definition setFromServerHistory (ops localOps : list Op.t) : list Op.t := ops.

(** [localOps.find((o) => o.opId === opId)] followed by [op.active = b] on
    the operation found. *)
Definition set_found (b : bool) (opId : nat) (localOps : list Op.t)
    : list Op.t :=
  match list_find (λ o, Op.opId o = opId) localOps with
  | Some (i, o) => <[i := Op.set_active b o]> localOps
  | None => localOps
  end.

(** [handleUndoOp(opId)] *)
Definition handleUndoOp (opId : nat) (localOps : list Op.t) : list Op.t :=
  set_found false opId localOps.

(** [handleRedoOp(opId)] *)
Definition handleRedoOp (opId : nat) (localOps : list Op.t) : list Op.t :=
  set_found true opId localOps.

(** [handleClearUserStrokes(opIds)] *)
Definition handleClearUserStrokes (opIds : list nat) (localOps : list Op.t)
    : list Op.t :=
  foldl (λ l n, set_found false n l) localOps opIds.

(** The listeners of [websocket.js], as far as [window.localOps] goes: the
    other messages change the page only.  The history is taken over under
    the guard [Array.isArray(ops)]; an inherited value does not arrive as
    an array (Socket.IO takes a function passed last to [emit] for an
    acknowledgement callback, and [Object.prototype] is serialized as an
    object without properties). *)
Definition receive (m : message) (localOps : list Op.t) : list Op.t :=
  match m with
  | CanvasHistory (OpsArray ops) => setFromServerHistory ops localOps
  | CanvasHistory (OpsInherited _) | CanvasHistory OpsUndefined => localOps
  | DrawMsg o => applyRemote o localOps
  | UndoOp n => handleUndoOp n localOps
  | RedoOp n => handleRedoOp n localOps
  | ClearUserStrokes ids => handleClearUserStrokes ids localOps
  | UserInfo _ | UserList _ | CursorMsg _ _ _ _ | RemoveCursor _ => localOps
  end.

(** The message an emit delivers to the socket [c], if any. *)
Definition delivered (c : string) (e : emit) : option message :=
  match e with
  | ToSocket id m => if decide (id = c) then Some m else None
  | ToRoom _ targets m => if decide (c ∈ targets) then Some m else None
  end.

(** The copy of client [c] after the server emitted [out], in order. *)
Definition sync (c : string) (out : list emit) (localOps : list Op.t)
    : list Op.t :=
  foldl (λ l e, match delivered c e with
                | Some m => receive m l
                | None => l
                end) localOps out.
End Client.

(** ** Names and colours of new users *)

(** [chars.charAt(i)]: the empty string out of range. *)
Definition charAt (s : string) (i : nat) : string :=
  match String.get i s with
  | Some a => String a EmptyString
  | None => EmptyString
  end.

Definition username_chars : string :=
  "ABCDEFGHIJKLMNOPQRSTUVWXYZ0123456789"%string.

(** The loop of [generateUsername]; [draw i] is the value of
    [Math.floor(Math.random() * chars.length)] in iteration [i], and [k]
    counts the iterations left. *)
Fixpoint generateUsername_loop (draw : nat → nat) (username : string)
    (i k : nat) : string :=
  match k with
  | 0 => username
  | S k' =>
      generateUsername_loop draw
        (String.append username (charAt username_chars (draw i))) (S i) k'
  end.

Definition generateUsername (draw : nat → nat) : string :=
  generateUsername_loop draw EmptyString 0 8.

Section ReplicaDefs.
Context `{RS : RoomStore}.

(** The copy [localOps] of client [c] agrees with the server: when [c] has
    a current room whose name [Object.prototype] does not define, the copy
    is that room's log.  (In a room with an inherited name the client is
    sent no array and keeps the copy it had.) *)
Definition replica_ok (st : server) (c : string) (localOps : list Op.t)
    : Prop :=
  ∀ r, currentRoom st !! c = Some (Some r) → object_prototype r = None →
       localOps = log st r.

(** No session has the room named [c] as its current room: no other
    session broadcasts into the room Socket.IO keeps for the socket
    [c]. *)
Definition private_room_unused (st : server) (c : string) : Prop :=
  ∀ sid, currentRoom st !! sid ≠ Some (Some c).

(** The request is no join-room request naming the room [c]. *)
Definition not_join_of (c : string) (rq : request) : Prop :=
  rq ≠ JoinRoom (JStr c).
End ReplicaDefs.


(** ** Further concrete states *)

Module Cases.
Local Open Scope string_scope.

(** Two users in ["default"], one active stroke each. *)
Definition both_drawn : server (RS := spec_registry) :=
  Scenario.state_after Scenario.two_users.

(** [u2] is in ["default"] and has drawn; [u1] is connected and has not
    joined a room. *)
Definition one_waiting : server (RS := spec_registry) :=
  Scenario.state_after
    [("u1", Connect "K3V9QX2A" "#FF6B6B"); ("u2", Connect "Z81MMP0D" "#4ECDC4");
     ("u2", JoinRoom (JStr "default")); ("u2", Draw Scenario.stroke)].

(** [u1] draws twice and undoes once before [u2] joins; then [u2] draws
    and [u1] clears. *)
Definition late_join : list (string * request) :=
  [("u1", Connect "K3V9QX2A" "#FF6B6B"); ("u1", JoinRoom (JStr "default"));
   ("u1", Draw Scenario.stroke); ("u1", Draw Scenario.bare_segment);
   ("u1", Undo);
   ("u2", Connect "Z81MMP0D" "#4ECDC4"); ("u2", JoinRoom (JStr "default"));
   ("u2", Draw Scenario.stroke); ("u1", Clear); ("u1", Redo)].

(** [u1] joins ["lobby"] and moves on to ["default"]. *)
Definition moved : server (RS := spec_registry) :=
  Scenario.state_after
    [("u1", Connect "K3V9QX2A" "#FF6B6B"); ("u1", JoinRoom (JStr "lobby"));
     ("u1", JoinRoom (JStr "default"))].

(** [u1] has undone its stroke, [u2] has not. *)
Definition one_undone : server (RS := spec_registry) :=
  Scenario.state_after Scenario.one_undone.

(** [u1] is in the room ["constructor"]. *)
Definition in_constructor : server (RS := spec_registry) :=
  Scenario.state_after Scenario.in_constructor.

(** The random indices 0, 4, 8, ..., 28. *)
Definition every_fourth (i : nat) : nat := 4 * i.
End Cases.

(** Closes a decidable closed goal by evaluating its decision procedure. *)
Ltac by_computation :=
  match goal with
  | |- ?P => apply (bool_decide_unpack P); vm_compute; exact I
  end.

Section LoopLemmas.
Context `{RS : RoomStore}.
Implicit Types (ops : list Op.t) (o : Op.t) (sid room : string).

Lemma returned_done {A : Type} (r : outcome A) (a d : A) :
  r = Done a → returned r d = a.
Proof. by intros ->. Qed.

Lemma done_returned {A : Type} (r : outcome A) (d : A) :
  is_done r = true → r = Done (returned r d).
Proof. by destruct r. Qed.

Lemma mine_active_true sid o :
  mine_active sid o = true ↔ Op.userId o = sid ∧ Op.active o = true.
Proof.
  unfold mine_active. rewrite andb_true_iff, bool_decide_eq_true. tauto.
Qed.

Lemma mine_inactive_true sid o :
  mine_inactive sid o = true ↔ Op.userId o = sid ∧ Op.active o = false.
Proof.
  unfold mine_inactive.
  rewrite andb_true_iff, bool_decide_eq_true, negb_true_iff. tauto.
Qed.

Lemma mine_active_false sid o :
  mine_active sid o = false ↔ (Op.userId o = sid → Op.active o = false).
Proof.
  rewrite <- not_true_iff_false, mine_active_true.
  destruct (Op.active o); intuition congruence.
Qed.

Lemma mine_inactive_false sid o :
  mine_inactive sid o = false ↔ (Op.userId o = sid → Op.active o = true).
Proof.
  rewrite <- not_true_iff_false, mine_inactive_true.
  destruct (Op.active o); intuition congruence.
Qed.

Lemma same_fixed_set_active b o : same_fixed o (Op.set_active b o).
Proof. by repeat split. Qed.

Lemma same_fixed_refl o : same_fixed o o.
Proof. by repeat split. Qed.

Lemma same_fixed_trans o1 o2 o3 :
  same_fixed o1 o2 → same_fixed o2 o3 → same_fixed o1 o3.
Proof. unfold same_fixed. intuition congruence. Qed.


(** The backward scan stops at the last index below [k] holding an
    active operation of [sid], or runs through. *)
Lemma undo_loop_spec sid room tg ops k :
  k ≤ length ops →
  (∃ i o, i < k ∧ ops !! i = Some o ∧ mine_active sid o = true ∧
     (∀ j o', i < j < k → ops !! j = Some o' → mine_active sid o' = false) ∧
     undo_loop sid room tg ops k =
       Done (<[i := Op.set_active false o]> ops,
             [ToRoom room tg (UndoOp (Op.opId o))]))
  ∨ ((∀ j o', j < k → ops !! j = Some o' → mine_active sid o' = false) ∧
     undo_loop sid room tg ops k = Done (ops, [])).
Proof.
  induction k as [|k IH]; intros Hk.
  - right. split; [intros; lia | done].
  - destruct (lookup_lt_is_Some_2 ops k) as [o Ho]; [lia|].
    simpl. rewrite Ho. destruct (mine_active sid o) eqn:Hm.
    + left. exists k, o. repeat split; auto with lia.
    + destruct IH as [(i & oi & Hi & Hoi & Hmi & Hlast & Heq)|[Hnone Heq]];
        [lia| |].
      * left. exists i, oi. repeat split; auto with lia.
        intros j o' Hj Hoj. destruct (decide (j = k)) as [->|].
        -- congruence.
        -- apply (Hlast j); [lia|done].
      * right. split; [|done]. intros j o' Hj Hoj.
        destruct (decide (j = k)) as [->|]; [congruence|].
        apply (Hnone j); [lia|done].
Qed.

(** The forward scan from [i] stops at the first index holding an
    inactive operation of [sid], or runs through. *)
Lemma redo_loop_spec sid room tg ops n i :
  i + n = length ops →
  (∃ j o, i ≤ j ∧ ops !! j = Some o ∧ mine_inactive sid o = true ∧
     (∀ j' o', i ≤ j' < j → ops !! j' = Some o' →
               mine_inactive sid o' = false) ∧
     redo_loop sid room tg ops n i =
       Done (<[j := Op.set_active true o]> ops,
             [ToRoom room tg (RedoOp (Op.opId o))]))
  ∨ ((∀ j' o', i ≤ j' → ops !! j' = Some o' → mine_inactive sid o' = false) ∧
     redo_loop sid room tg ops n i = Done (ops, [])).
Proof.
  revert i. induction n as [|n IH]; intros i Hn.
  - right. split; [|done]. intros j' o' Hj Ho'.
    apply lookup_lt_Some in Ho'. lia.
  - destruct (lookup_lt_is_Some_2 ops i) as [o Ho]; [lia|].
    simpl. rewrite Ho. destruct (mine_inactive sid o) eqn:Hm.
    + left. exists i, o. repeat split; auto with lia.
    + destruct (IH (S i)) as [(j & oj & Hj & Hoj & Hmj & Hfirst & Heq)|[Hnone Heq]];
        [lia| |].
      * left. exists j, oj. repeat split; auto with lia.
        intros j' o' Hj' Ho'. destruct (decide (j' = i)) as [->|].
        -- congruence.
        -- apply (Hfirst j'); [lia|done].
      * right. split; [|done]. intros j' o' Hj' Ho'.
        destruct (decide (j' = i)) as [->|]; [congruence|].
        apply (Hnone j'); [lia|done].
Qed.

(** [forEach] visits every operation once, in order. *)
Lemma clear_loop_spec sid ops removed :
  clear_loop sid ops removed =
    (deactivate_mine sid <$> ops,
     (removed ++ (Op.opId <$> filter (λ o, mine_active sid o = true) ops))%list).
Proof.
  revert removed. induction ops as [|o ops IH]; intros removed; simpl.
  - by rewrite app_nil_r.
  - unfold deactivate_mine at 1.
    rewrite filter_cons. destruct (mine_active sid o) eqn:Hm.
    + rewrite IH. rewrite decide_True by done.
      by rewrite <- app_assoc.
    + rewrite IH. by rewrite decide_False by congruence.
Qed.

End LoopLemmas.

(** ** Properties of [log_step] *)

Section LogStep.
Implicit Types (l : list Op.t) (o : Op.t) (sid : string).

Lemma deactivate_mine_fixed sid o : same_fixed o (deactivate_mine sid o).
Proof.
  unfold deactivate_mine. destruct (mine_active sid o);
    auto using same_fixed_set_active, same_fixed_refl.
Qed.

Lemma deactivate_mine_other sid o :
  Op.userId o ≠ sid → deactivate_mine sid o = o.
Proof.
  intros Hne. unfold deactivate_mine.
  destruct (mine_active sid o) eqn:Hm; [|done].
  apply mine_active_true in Hm as [? _]. done.
Qed.


(** Every position keeps its operation, up to [active]. *)
Lemma log_step_frame sid l l' i o :
  log_step sid l l' → l !! i = Some o →
  ∃ o', l' !! i = Some o' ∧ same_fixed o o'.
Proof.
  intros Hstep Hi. destruct Hstep as [l|l o1 _ _ _|l j oj b Hj _|l].
  - exists o. auto using same_fixed_refl.
  - exists o. split; [|apply same_fixed_refl].
    by rewrite lookup_app_l by (by eapply lookup_lt_Some).
  - destruct (decide (j = i)) as [->|Hne].
    + exists (Op.set_active b oj). split.
      * apply list_lookup_insert_eq. by eapply lookup_lt_Some.
      * assert (oj = o) as -> by congruence. apply same_fixed_set_active.
    + exists o. split; [|apply same_fixed_refl].
      by rewrite list_lookup_insert_ne.
  - exists (deactivate_mine sid o). split.
    + by rewrite list_lookup_fmap, Hi.
    + apply deactivate_mine_fixed.
Qed.

(** Operations of other users are neither changed, nor moved, nor added. *)
Lemma log_step_other sid l l' i o :
  log_step sid l l' → Op.userId o ≠ sid →
  (l !! i = Some o ↔ l' !! i = Some o).
Proof.
  intros Hstep Hne. destruct Hstep as [l|l o1 Hu _ _|l j oj b Hj Hu|l].
  - done.
  - split.
    + intros Hi. by rewrite lookup_app_l by (by eapply lookup_lt_Some).
    + intros Hi. apply lookup_app_Some in Hi as [Hi|[_ Hi]]; [done|].
      apply list_lookup_singleton_Some in Hi as [_ ->]. done.
  - destruct (decide (j = i)) as [->|Hji].
    + split; intros Hi.
      * congruence.
      * rewrite list_lookup_insert_eq in Hi by (by eapply lookup_lt_Some).
        injection Hi as <-. done.
    + by rewrite list_lookup_insert_ne.
  - rewrite list_lookup_fmap. split.
    + intros ->. simpl. by rewrite deactivate_mine_other.
    + destruct (l !! i) as [o1|] eqn:Hi; [|done]. simpl. intros [= Heq].
      assert (Op.userId o1 ≠ sid) as Hne1.
      { destruct (deactivate_mine_fixed sid o1) as [Hu _]. congruence. }
      rewrite deactivate_mine_other in Heq by done. congruence.
Qed.

(** The ids stay [0..n-1]. *)
Lemma log_step_gapless sid l l' : log_step sid l l' → gapless l → gapless l'.
Proof.
  unfold gapless. intros Hstep Hg.
  destruct Hstep as [l|l o1 _ Hid _|l j oj b Hj _|l].
  - done.
  - rewrite fmap_app, length_app, seq_app, Hg. simpl. by rewrite Hid.
  - rewrite length_insert, list_fmap_insert. simpl.
    rewrite list_insert_id; [done|]. by rewrite list_lookup_fmap, Hj.
  - rewrite length_fmap, <- Hg, <- list_fmap_compose.
    apply list_fmap_ext. intros i o _. simpl.
    by destruct (deactivate_mine_fixed sid o) as (_ & -> & _).
Qed.

End LogStep.

(** ** The handlers, step by step *)

Section HandlerLemmas.
Context `{RS : RoomStore}.
Implicit Types (st : server) (sid room r : string) (rq : request).

Lemma log_set_ops room ops st r :
  log (set_ops room ops st) r = if decide (room = r) then ops else log st r.
Proof.
  unfold log, set_ops. simpl. rewrite lookup_insert.
  by destruct (decide (room = r)).
Qed.

Lemma log_lookup st r ops : roomsOperations st !! r = Some ops → log st r = ops.
Proof. unfold log. by intros ->. Qed.

Lemma room_truthy_Some room :
  room_truthy (Some room) = true ↔ room ≠ String.EmptyString.
Proof.
  simpl. rewrite negb_true_iff. split.
  - intros H ->. by rewrite String.eqb_refl in H.
  - intros H. by apply String.eqb_neq.
Qed.

Lemma read_ops_array (own : gmap string (list Op.t)) room ops :
  read_ops own room = OpsArray ops ↔ own !! room = Some ops.
Proof.
  unfold read_ops. destruct (own !! room); [|destruct (object_prototype room)];
    split; congruence.
Qed.

Lemma read_ops_lookup (own : gmap string (list Op.t)) room ops :
  own !! room = Some ops → read_ops own room = OpsArray ops.
Proof. apply read_ops_array. Qed.

Lemma read_ops_inherited (own : gmap string (list Op.t)) room v :
  read_ops own room = OpsInherited v ↔
  own !! room = None ∧ object_prototype room = Some v.
Proof.
  unfold read_ops. destruct (own !! room); [|destruct (object_prototype room)];
    naive_solver.
Qed.

Lemma read_ops_undefined (own : gmap string (list Op.t)) room :
  read_ops own room = OpsUndefined ↔
  own !! room = None ∧ object_prototype room = None.
Proof.
  unfold read_ops. destruct (own !! room); [|destruct (object_prototype room)];
    naive_solver.
Qed.

Lemma read_ops_defined (own : gmap string (list Op.t)) room :
  read_ops own room ≠ OpsUndefined ↔
  is_Some (own !! room) ∨ is_Some (object_prototype room).
Proof.
  unfold read_ops. destruct (own !! room); [|destruct (object_prototype room)];
    rewrite <- ?not_eq_None_Some; naive_solver.
Qed.

Lemma scan_inherited_done {A : Type} v (a b : A) :
  scan_inherited v a = Done b → b = a.
Proof.
  unfold scan_inherited. destruct (inherited_length v) as [[|n]|]; congruence.
Qed.

Lemma on_join_log sid cur room st st' out r :
  on_join sid cur room st = Done (st', out) → log st' r = log st r.
Proof.
  unfold on_join. destruct (users st !! sid); [|done]. intros [= <- _].
  unfold log. simpl. unfold read_ops.
  destruct (roomsOperations st !! room) eqn:Hr; [done|].
  destruct (object_prototype room); [done|].
  rewrite lookup_insert. destruct (decide (room = r)) as [<-|]; [|done].
  by rewrite Hr.
Qed.

Lemma on_draw_step sid cur ev st st' out r :
  on_draw sid cur ev st = Done (st', out) →
  log_step sid (log st r) (log st' r).
Proof.
  unfold on_draw. destruct cur as [room|]; [|intros [= <- _]; constructor].
  destruct (room_truthy (Some room)); [|intros [= <- _]; constructor].
  destruct (valid_segment ev); [|intros [= <- _]; constructor].
  destruct (read_ops (roomsOperations st) room) as [ops|v|] eqn:Hr; [|done..].
  apply read_ops_array in Hr.
  intros [= <- _]. rewrite log_set_ops.
  destruct (decide (room = r)) as [<-|]; [|constructor].
  rewrite (log_lookup _ _ _ Hr). by constructor.
Qed.

Lemma on_clear_step sid cur st st' out r :
  on_clear sid cur st = Done (st', out) →
  log_step sid (log st r) (log st' r).
Proof.
  unfold on_clear. destruct cur as [room|]; [|intros [= <- _]; constructor].
  destruct (room_truthy (Some room)); [|intros [= <- _]; constructor].
  destruct (read_ops (roomsOperations st) room) as [ops|v|] eqn:Hr; [|done..].
  apply read_ops_array in Hr.
  rewrite clear_loop_spec. intros [= <- _]. rewrite log_set_ops.
  destruct (decide (room = r)) as [<-|]; [|constructor].
  rewrite (log_lookup _ _ _ Hr). constructor.
Qed.

Lemma on_undo_step sid cur st st' out r :
  on_undo sid cur st = Done (st', out) →
  log_step sid (log st r) (log st' r).
Proof.
  unfold on_undo. destruct cur as [room|]; [|intros [= <- _]; constructor].
  destruct (room_truthy (Some room)); [|intros [= <- _]; constructor].
  destruct (read_ops (roomsOperations st) room) as [ops|v|] eqn:Hr; [| |done].
  2:{ intros H. apply scan_inherited_done in H as [= -> _]. constructor. }
  apply read_ops_array in Hr.
  destruct (undo_loop_spec sid room (sio_members room (sio_rooms st)) ops
              (length ops)) as [(i & o & _ & Hi & Hm & _ & ->)|[_ ->]]; [lia| |];
    intros [= <- _]; rewrite log_set_ops;
    (destruct (decide (room = r)) as [<-|]; [|constructor]);
    rewrite (log_lookup _ _ _ Hr).
  - apply mine_active_true in Hm as [Hu _]. by constructor.
  - constructor.
Qed.

Lemma on_redo_step sid cur st st' out r :
  on_redo sid cur st = Done (st', out) →
  log_step sid (log st r) (log st' r).
Proof.
  unfold on_redo. destruct cur as [room|]; [|intros [= <- _]; constructor].
  destruct (room_truthy (Some room)); [|intros [= <- _]; constructor].
  destruct (read_ops (roomsOperations st) room) as [ops|v|] eqn:Hr; [| |done].
  2:{ intros H. apply scan_inherited_done in H as [= -> _]. constructor. }
  apply read_ops_array in Hr.
  destruct (redo_loop_spec sid room (sio_members room (sio_rooms st)) ops
              (length ops) 0) as [(i & o & _ & Hi & Hm & _ & ->)|[_ ->]]; [lia| |];
    intros [= <- _]; rewrite log_set_ops;
    (destruct (decide (room = r)) as [<-|]; [|constructor]);
    rewrite (log_lookup _ _ _ Hr).
  - apply mine_inactive_true in Hm as [Hu _]. by constructor.
  - constructor.
Qed.

Lemma on_cursor_state sid cur pos st st' out :
  on_cursor sid cur pos st = Done (st', out) → st' = st.
Proof.
  unfold on_cursor. intros H.
  repeat (match type of H with
          | context [match ?x with _ => _ end] => destruct x
          end; try discriminate); by injection H as <- _.
Qed.

Lemma on_disconnect_ops sid cur st st' out :
  on_disconnect sid cur st = Done (st', out) →
  roomsOperations st' = roomsOperations st.
Proof.
  unfold on_disconnect. intros H.
  repeat (match type of H with
          | context [match ?x with _ => _ end] => destruct x
          end; try discriminate); by injection H as <- _.
Qed.

(** A join-room request that returned either came from a socket that is
    not connected, or carried a string and ran the handler. *)
Lemma handle_join_inv sid v st st' out :
  handle sid (JoinRoom v) st = Done (st', out) →
  (currentRoom st !! sid = None ∧ st' = st ∧ out = []) ∨
  (∃ cur room, currentRoom st !! sid = Some cur ∧ v = JStr room ∧
     on_join sid cur room st = Done (st', out)).
Proof.
  unfold handle. destruct (currentRoom st !! sid) as [cur|].
  - destruct v; try discriminate. intros H. right. eauto.
  - intros [= <- <-]. by left.
Qed.

(** Requests other than draw, undo, redo and clear leave every log as it
    is. *)
Lemma handle_other_log sid rq st st' out r :
  handle sid rq st = Done (st', out) → ¬ drawing_request rq →
  log st' r = log st r.
Proof.
  unfold handle. intros H Hrq.
  destruct (currentRoom st !! sid) as [cur|], rq; simpl in Hrq;
    try (exfalso; by apply Hrq); try (by injection H as <- _).
  - destruct room; try discriminate. by eapply on_join_log.
  - by rewrite (on_cursor_state _ _ _ _ _ _ H).
  - unfold log. by rewrite (on_disconnect_ops _ _ _ _ _ H).
Qed.

(** Every request of [sid] changes every log by a [log_step] of [sid]. *)
Lemma handle_log_step sid rq st st' out r :
  handle sid rq st = Done (st', out) → log_step sid (log st r) (log st' r).
Proof.
  intros H.
  destruct rq;
    try (rewrite (handle_other_log _ _ _ _ _ r H) by (simpl; tauto);
         constructor);
    unfold handle in H; destruct (currentRoom st !! sid) as [cur|];
    try (injection H as <- _; constructor).
  - by eapply on_draw_step.
  - by eapply on_clear_step.
  - by eapply on_undo_step.
  - by eapply on_redo_step.
Qed.

End HandlerLemmas.

(** ** Socket.IO room membership *)

Section Membership.
Implicit Types (ad : gmap string (gset string)) (sid room r : string).

Lemma sio_members_join sid room ad r :
  sio_members r (sio_join sid room ad) =
    if decide (room = r) then {[sid]} ∪ sio_members r ad
    else sio_members r ad.
Proof.
  unfold sio_join, sio_members at 1. rewrite lookup_insert.
  by destruct (decide (room = r)) as [->|].
Qed.

Lemma sio_members_leave sid room ad r :
  sio_members r (sio_leave sid room ad) =
    if decide (room = r) then sio_members r ad ∖ {[sid]}
    else sio_members r ad.
Proof.
  unfold sio_leave. destruct (ad !! room) as [s|] eqn:Hs.
  - unfold sio_members at 1. rewrite lookup_insert.
    destruct (decide (room = r)) as [<-|]; [|done].
    unfold sio_members. by rewrite Hs.
  - destruct (decide (room = r)) as [<-|]; [|done].
    unfold sio_members. rewrite Hs. simpl. set_solver.
Qed.

Lemma sio_members_leave_all sid ad r :
  sio_members r (sio_leave_all sid ad) = sio_members r ad ∖ {[sid]}.
Proof.
  unfold sio_leave_all, sio_members. rewrite lookup_fmap.
  destruct (ad !! r); simpl; [done|set_solver].
Qed.

End Membership.

(** ** Reachable states are well formed, and requests do not throw *)

Section WellFormed.
Context `{RS : RoomStore}.
Implicit Types (st : server) (sid room r : string) (rq : request).

Lemma gapless_nil : gapless [].
Proof. done. Qed.

Lemma wf_initial : wf initial.
Proof. split; simpl; intros *; rewrite lookup_empty; by try intros [? ?]. Qed.

(** Draw, undo, redo and clear touch nothing but the log of a room that
    already has one. *)
Lemma handle_drawing_rest sid rq st st' out :
  drawing_request rq → handle sid rq st = Done (st', out) →
  users st' = users st ∧ currentRoom st' = currentRoom st ∧
  sio_rooms st' = sio_rooms st ∧ roomStore st' = roomStore st ∧
  ∀ r, is_Some (roomsOperations st' !! r) ↔ is_Some (roomsOperations st !! r).
Proof.
  intros Hrq H. unfold handle in H.
  destruct (currentRoom st !! sid) as [cur|], rq; simpl in Hrq; try done;
    try (by injection H as <- _);
    unfold on_draw, on_clear, on_undo, on_redo in H;
    (destruct cur as [room|]; [|by injection H as <- _]);
    (destruct (room_truthy (Some room)); [|by injection H as <- _]);
    try (destruct (valid_segment ev); [|by injection H as <- _]);
    (destruct (read_ops (roomsOperations st) room) as [ops|v|] eqn:Hr;
       [|try done|done]);
    try (by apply scan_inherited_done in H as [= -> _]);
    apply read_ops_array in Hr.
  - injection H as <- _. simpl. repeat split; auto.
    all: rewrite lookup_insert; destruct (decide (room = r)) as [<-|];
      rewrite ?Hr; eauto.
  - destruct (clear_loop sid ops []) as [ops' removed].
    injection H as <- _. simpl. repeat split; auto.
    all: rewrite lookup_insert; destruct (decide (room = r)) as [<-|];
      rewrite ?Hr; eauto.
  - destruct (undo_loop _ _ _ _ _) as [[ops' out']| |]; [|done..].
    injection H as <- _. simpl. repeat split; auto.
    all: rewrite lookup_insert; destruct (decide (room = r)) as [<-|];
      rewrite ?Hr; eauto.
  - destruct (redo_loop _ _ _ _ _ _) as [[ops' out']| |]; [|done..].
    injection H as <- _. simpl. repeat split; auto.
    all: rewrite lookup_insert; destruct (decide (room = r)) as [<-|];
      rewrite ?Hr; eauto.
Qed.

Lemma wf_drawing sid rq st st' out :
  drawing_request rq → wf st → handle sid rq st = Done (st', out) → wf st'.
Proof.
  intros Hrq Hwf H.
  destruct (handle_drawing_rest _ _ _ _ _ Hrq H) as (Hu & Hc & Hs & _ & Hd).
  split.
  - intros sid' r. rewrite Hc, read_ops_defined, Hd, <- read_ops_defined.
    apply Hwf.
  - intros sid'. rewrite Hc, Hu. apply Hwf.
  - intros r ops' Hr'.
    destruct (proj1 (Hd r)) as [ops Hr]; [by eauto|].
    pose proof (handle_log_step _ _ _ _ _ r H) as Hstep.
    rewrite (log_lookup _ _ _ Hr), (log_lookup _ _ _ Hr') in Hstep.
    eapply log_step_gapless; [done|]. by eapply wf_ids.
  - intros sid' r. rewrite Hc, Hs. apply Hwf.
Qed.

Lemma wf_join sid cur room st st' out :
  wf st → currentRoom st !! sid = Some cur →
  on_join sid cur room st = Done (st', out) → wf st'.
Proof.
  intros Hwf Hcur. unfold on_join.
  destruct (users st !! sid) as [u|] eqn:Hu; [|done]. intros [= <- _].
  split; simpl.
  - intros sid' r. rewrite lookup_insert, read_ops_defined.
    destruct (decide (sid = sid')) as [<-|].
    + intros [= <-]. destruct (read_ops (roomsOperations st) room) eqn:Hr.
      * apply read_ops_array in Hr. eauto.
      * apply read_ops_inherited in Hr as [_ ->]. eauto.
      * rewrite lookup_insert_eq. eauto.
    + intros Hc. pose proof (wf_log _ Hwf _ _ Hc) as Hd.
      apply read_ops_defined in Hd.
      destruct (read_ops (roomsOperations st) room) eqn:Hr; [done..|].
      rewrite lookup_insert. destruct (decide (room = r)); eauto.
  - intros sid'. rewrite lookup_insert.
    destruct (decide (sid = sid')) as [<-|]; [by eauto|]. apply Hwf.
  - intros r ops.
    destruct (read_ops (roomsOperations st) room) eqn:Hr; [apply Hwf..|].
    rewrite lookup_insert. destruct (decide (room = r)).
    + intros [= <-]. apply gapless_nil.
    + apply Hwf.
  - intros sid' r. rewrite lookup_insert, sio_members_join.
    destruct (decide (sid = sid')) as [<-|Hne].
    + intros [= <-]. rewrite decide_True by done. set_solver.
    + intros Hc. pose proof (wf_member _ Hwf _ _ Hc) as Hin.
      assert (sid' ∈ sio_members r
                match cur with
                | Some old => if room_truthy cur
                              then sio_leave sid old (sio_rooms st)
                              else sio_rooms st
                | None => sio_rooms st
                end) as Hin1.
      { destruct cur as [old|]; [|done].
        destruct (room_truthy (Some old)); [|done].
        rewrite sio_members_leave. destruct (decide (old = r)); set_solver. }
      destruct (decide (room = r)); set_solver.
Qed.

Lemma wf_disconnect sid cur st st' out :
  wf st → on_disconnect sid cur st = Done (st', out) → wf st'.
Proof.
  intros Hwf H.
  assert (roomsOperations st' = roomsOperations st ∧
          users st' = delete sid (users st) ∧
          currentRoom st' = delete sid (currentRoom st) ∧
          sio_rooms st' = sio_leave_all sid (sio_rooms st))
    as (Ho & Hu & Hc & Hs).
  { unfold on_disconnect in H. destruct cur as [room|];
      [destruct (room_truthy (Some room))|]; by injection H as <- _. }
  split.
  - intros sid' r. rewrite Hc, Ho, lookup_delete.
    destruct (decide (sid = sid')); [done|]. apply Hwf.
  - intros sid'. rewrite Hc, Hu, !lookup_delete.
    destruct (decide (sid = sid')); [by intros [? ?]|]. apply Hwf.
  - intros r ops. rewrite Ho. apply Hwf.
  - intros sid' r. rewrite Hc, Hs, lookup_delete, sio_members_leave_all.
    destruct (decide (sid = sid')); [done|]. intros Hcur.
    pose proof (wf_member _ Hwf _ _ Hcur). set_solver.
Qed.

Lemma wf_connection sid uname col st :
  wf st → currentRoom st !! sid = None → wf (on_connection sid uname col st).
Proof.
  intros Hwf Hnone. split; simpl.
  - intros sid' r. rewrite lookup_insert.
    destruct (decide (sid = sid')); [done|]. apply Hwf.
  - intros sid'. rewrite !lookup_insert.
    destruct (decide (sid = sid')); [by eauto|]. apply Hwf.
  - apply Hwf.
  - intros sid' r. rewrite lookup_insert.
    destruct (decide (sid = sid')); [done|]. intros Hc.
    rewrite sio_members_join. pose proof (wf_member _ Hwf _ _ Hc).
    destruct (decide (sid = r)); set_solver.
Qed.

Lemma wf_step sid rq st st' out :
  wf st → handle sid rq st = Done (st', out) → wf st'.
Proof.
  intros Hwf H.
  destruct rq;
    try (eapply wf_drawing; [| exact Hwf | exact H]; exact I);
    unfold handle in H; destruct (currentRoom st !! sid) as [cur|] eqn:Hcur;
    try (by injection H as <- _).
  - injection H as <- _. by apply wf_connection.
  - destruct room; try discriminate. by eapply wf_join.
  - by rewrite (on_cursor_state _ _ _ _ _ _ H).
  - by eapply wf_disconnect.
Qed.

Lemma reachable_wf st : reachable st → wf st.
Proof.
  induction 1 as [|st sid rq st' out _ IH Hstep].
  - apply wf_initial.
  - by eapply wf_step.
Qed.

Lemma getProp_not_nullish pos k :
  pos ≠ JUndefined → pos ≠ JNull → is_Some (getProp pos k).
Proof. destruct pos; simpl; by eauto. Qed.

Lemma wf_own_log sid room st :
  wf st → currentRoom st !! sid = Some (Some room) →
  object_prototype room = None →
  ∃ ops, roomsOperations st !! room = Some ops ∧
         read_ops (roomsOperations st) room = OpsArray ops.
Proof.
  intros Hwf Hc Hp. pose proof (wf_log _ Hwf _ _ Hc) as Hd.
  apply read_ops_defined in Hd as [[ops Hops]|[? ?]]; [|congruence].
  exists ops. split; [done|]. by apply read_ops_array.
Qed.

(** In a well-formed state a request returns when it is not a cursor
    request without a payload, its join payload is a string, and, for a
    draw, clear, undo or redo request, the room of the sender has a name
    that [Object.prototype] does not define. *)
Lemma handle_returns sid rq st :
  wf st → ¬ cursor_nullish rq →
  (∀ v, rq = JoinRoom v → ∃ room, v = JStr room) →
  (drawing_request rq → plain_room st sid) →
  ∃ st' out, handle sid rq st = Done (st', out).
Proof.
  intros Hwf Hrq Hjoin Hplain. unfold handle.
  destruct (currentRoom st !! sid) as [cur|] eqn:Hcur; [|destruct rq; eauto].
  destruct rq; eauto.
  - destruct (Hjoin _ eq_refl) as [room' ->]. unfold on_join.
    destruct (wf_users _ Hwf sid) as [u ->]; eauto.
  - unfold on_draw. destruct cur as [room|]; [|by eauto].
    destruct (room_truthy (Some room)); [|by eauto].
    destruct (valid_segment ev); [|by eauto].
    destruct (wf_own_log _ _ _ Hwf Hcur (Hplain I _ Hcur)) as (ops & _ & ->).
    eauto.
  - unfold on_clear. destruct cur as [room|]; [|by eauto].
    destruct (room_truthy (Some room)); [|by eauto].
    destruct (wf_own_log _ _ _ Hwf Hcur (Hplain I _ Hcur)) as (ops & _ & ->).
    destruct (clear_loop sid ops []). eauto.
  - unfold on_undo. destruct cur as [room|]; [|by eauto].
    destruct (room_truthy (Some room)); [|by eauto].
    destruct (wf_own_log _ _ _ Hwf Hcur (Hplain I _ Hcur)) as (ops & _ & ->).
    destruct (undo_loop_spec sid room (sio_members room (sio_rooms st)) ops
                (length ops)) as [(i & o & _ & _ & _ & _ & ->)|[_ ->]];
      [lia| |]; eauto.
  - unfold on_redo. destruct cur as [room|]; [|by eauto].
    destruct (room_truthy (Some room)); [|by eauto].
    destruct (wf_own_log _ _ _ Hwf Hcur (Hplain I _ Hcur)) as (ops & _ & ->).
    destruct (redo_loop_spec sid room (sio_members room (sio_rooms st)) ops
                (length ops) 0) as [(i & o & _ & _ & _ & _ & ->)|[_ ->]];
      [lia| |]; eauto.
  - unfold on_cursor. destruct cur as [room|]; [|by eauto].
    destruct (room_truthy (Some room)); [|by eauto].
    assert (pos ≠ JUndefined ∧ pos ≠ JNull) as [H1 H2].
    { split; intros ->; by apply Hrq. }
    destruct (getProp_not_nullish pos "x" H1 H2) as [? ->].
    destruct (getProp_not_nullish pos "y" H1 H2) as [? ->].
    destruct (getProp_not_nullish pos "color" H1 H2) as [? ->]. eauto.
  - unfold on_disconnect. destruct cur as [room|]; [|by eauto].
    destruct (room_truthy (Some room)); eauto.
Qed.

End WellFormed.

(** ** The result of each drawing handler for a joined session *)

Section Results.
Context `{RS : RoomStore}.
Implicit Types (st : server) (sid room r : string) (ops : list Op.t).

Lemma set_ops_id room ops st :
  roomsOperations st !! room = Some ops → set_ops room ops st = st.
Proof.
  intros Hr. destruct st as [ro us cr ad rs]. unfold set_ops. simpl in *.
  by rewrite insert_id.
Qed.

Lemma joined_truthy st sid room :
  joined st sid room → room_truthy (Some room) = true.
Proof. intros [_ Hne]. by apply room_truthy_Some. Qed.

Lemma reachable_log st sid room :
  reachable st → joined st sid room → object_prototype room = None →
  roomsOperations st !! room = Some (log st room).
Proof.
  intros Hreach [Hcur _] Hp.
  destruct (wf_own_log _ _ _ (reachable_wf _ Hreach) Hcur Hp)
    as (ops & Hops & _).
  by rewrite (log_lookup _ _ _ Hops).
Qed.

Lemma draw_result st sid room ops ev :
  joined st sid room → roomsOperations st !! room = Some ops →
  handle sid (Draw ev) st =
    if valid_segment ev then
      Done (set_ops room (ops ++ [new_op sid ev (length ops)]) st,
            [ToRoom room (sio_members room (sio_rooms st))
                    (DrawMsg (new_op sid ev (length ops)))])
    else Done (st, []).
Proof.
  intros Hj Hr. pose proof (joined_truthy _ _ _ Hj) as Ht.
  destruct Hj as [Hcur _]. unfold handle, on_draw.
  rewrite Hcur, Ht, (read_ops_lookup _ _ _ Hr).
  done.
Qed.

Lemma clear_result st sid room ops :
  joined st sid room → roomsOperations st !! room = Some ops →
  handle sid Clear st =
    Done (set_ops room (deactivate_mine sid <$> ops) st,
          [ToRoom room (sio_members room (sio_rooms st))
             (ClearUserStrokes
                (Op.opId <$> filter (λ o, mine_active sid o = true) ops))]).
Proof.
  intros Hj Hr. pose proof (joined_truthy _ _ _ Hj) as Ht.
  destruct Hj as [Hcur _]. unfold handle, on_clear.
  rewrite Hcur, Ht, (read_ops_lookup _ _ _ Hr).
  by rewrite clear_loop_spec.
Qed.

Lemma undo_result st sid room ops :
  joined st sid room → roomsOperations st !! room = Some ops →
  (∃ i o, ops !! i = Some o ∧ mine_active sid o = true ∧
     (∀ j o', i < j → ops !! j = Some o' → mine_active sid o' = false) ∧
     handle sid Undo st =
       Done (set_ops room (<[i := Op.set_active false o]> ops) st,
             [ToRoom room (sio_members room (sio_rooms st))
                     (UndoOp (Op.opId o))]))
  ∨ ((∀ j o', ops !! j = Some o' → mine_active sid o' = false) ∧
     handle sid Undo st = Done (st, [])).
Proof.
  intros Hj Hr. pose proof (joined_truthy _ _ _ Hj) as Ht.
  destruct Hj as [Hcur _]. unfold handle, on_undo.
  rewrite Hcur, Ht, (read_ops_lookup _ _ _ Hr).
  destruct (undo_loop_spec sid room (sio_members room (sio_rooms st)) ops
              (length ops)) as [(i & o & _ & Hi & Hm & Hlast & ->)|[Hnone ->]];
    [lia| |].
  - left. exists i, o. repeat split; auto.
    intros j o' Hj Ho'. apply (Hlast j); [|done].
    apply lookup_lt_Some in Ho'. lia.
  - right. split.
    + intros j o' Ho'. apply (Hnone j); [|done]. by eapply lookup_lt_Some.
    + by rewrite set_ops_id.
Qed.

Lemma redo_result st sid room ops :
  joined st sid room → roomsOperations st !! room = Some ops →
  (∃ i o, ops !! i = Some o ∧ mine_inactive sid o = true ∧
     (∀ j o', j < i → ops !! j = Some o' → mine_inactive sid o' = false) ∧
     handle sid Redo st =
       Done (set_ops room (<[i := Op.set_active true o]> ops) st,
             [ToRoom room (sio_members room (sio_rooms st))
                     (RedoOp (Op.opId o))]))
  ∨ ((∀ j o', ops !! j = Some o' → mine_inactive sid o' = false) ∧
     handle sid Redo st = Done (st, [])).
Proof.
  intros Hj Hr. pose proof (joined_truthy _ _ _ Hj) as Ht.
  destruct Hj as [Hcur _]. unfold handle, on_redo.
  rewrite Hcur, Ht, (read_ops_lookup _ _ _ Hr).
  destruct (redo_loop_spec sid room (sio_members room (sio_rooms st)) ops
              (length ops) 0) as [(i & o & _ & Hi & Hm & Hfirst & ->)|[Hnone ->]];
    [lia| |].
  - left. exists i, o. repeat split; auto.
    intros j o' Hj Ho'. apply (Hfirst j); [lia|done].
  - right. split.
    + intros j o' Ho'. apply (Hnone j); [lia|done].
    + by rewrite set_ops_id.
Qed.

Lemma cursor_result st sid room pos :
  joined st sid room → pos ≠ JUndefined → pos ≠ JNull →
  handle sid (Cursor pos) st =
    Done (st, [ToRoom room (sio_members room (sio_rooms st))
                 (CursorMsg sid (field pos "x") (field pos "y")
                            (field pos "color"))]).
Proof.
  intros Hj H1 H2. pose proof (joined_truthy _ _ _ Hj) as Ht.
  destruct Hj as [Hcur _]. unfold handle, on_cursor, field. rewrite Hcur, Ht.
  destruct (getProp_not_nullish pos "x" H1 H2) as [? ->].
  destruct (getProp_not_nullish pos "y" H1 H2) as [? ->].
  destruct (getProp_not_nullish pos "color" H1 H2) as [? ->]. done.
Qed.


Lemma run_cons_inv sid rq evs st st' out :
  run ((sid, rq) :: evs) st = Done (st', out) →
  ∃ st1 out1 out2,
    handle sid rq st = Done (st1, out1) ∧ run evs st1 = Done (st', out2) ∧
    out = (out1 ++ out2)%list.
Proof.
  simpl. destruct (handle sid rq st) as [[st1 out1]| |]; [|done..].
  destruct (run evs st1) as [[st2 out2]| |] eqn:Hrun; [|done..].
  intros [= <- <-]. by exists st1, out1, out2.
Qed.

Lemma run_cons_done sid rq evs st st1 out1 st2 out2 :
  handle sid rq st = Done (st1, out1) → run evs st1 = Done (st2, out2) →
  run ((sid, rq) :: evs) st = Done (st2, (out1 ++ out2)%list).
Proof. intros H1 H2. simpl. by rewrite H1, H2. Qed.

(** A log is an own property only under a name that [Object.prototype]
    does not define. *)
Lemma handle_own_keys sid rq st st' out r :
  handle sid rq st = Done (st', out) → is_Some (roomsOperations st' !! r) →
  is_Some (roomsOperations st !! r) ∨ object_prototype r = None.
Proof.
  intros H Hr.
  assert (drawing_request rq ∨ ¬ drawing_request rq) as [Hd|Hd]
    by (destruct rq; simpl; tauto).
  { left. by apply (handle_drawing_rest _ _ _ _ _ Hd H). }
  destruct rq; simpl in Hd; try tauto.
  - left. unfold handle in H.
    destruct (currentRoom st !! sid); by injection H as <- _.
  - apply handle_join_inv in H
      as [(_ & -> & _)|(cur & room' & _ & _ & H)]; [by left|].
    unfold on_join in H. destruct (users st !! sid); [|done].
    injection H as <- _. simpl in Hr.
    destruct (read_ops (roomsOperations st) room') eqn:Hread; [by left..|].
    rewrite lookup_insert in Hr. destruct (decide (room' = r)) as [<-|];
      [|by left].
    right. by apply read_ops_undefined in Hread as [_ ?].
  - left. unfold handle in H. destruct (currentRoom st !! sid).
    + by rewrite (on_cursor_state _ _ _ _ _ _ H) in Hr.
    + by injection H as <- _.
  - left. unfold handle in H. destruct (currentRoom st !! sid).
    + by rewrite (on_disconnect_ops _ _ _ _ _ H) in Hr.
    + by injection H as <- _.
Qed.

Lemma reachable_inherited st r v :
  reachable st → object_prototype r = Some v →
  roomsOperations st !! r = None ∧
  read_ops (roomsOperations st) r = OpsInherited v.
Proof.
  intros Hreach Hp.
  assert (roomsOperations st !! r = None) as Hnone.
  { induction Hreach as [|st sid rq st' out _ IH Hstep].
    - apply lookup_empty.
    - apply eq_None_not_Some. intros Hs.
      destruct (handle_own_keys _ _ _ _ _ _ Hstep Hs) as [Hs'|]; [|congruence].
      rewrite IH in Hs'. by destruct Hs'. }
  split; [done|]. by apply read_ops_inherited.
Qed.

Lemma plain_room_drawing sid rq st st' out sid' :
  drawing_request rq → handle sid rq st = Done (st', out) →
  plain_room st sid' → plain_room st' sid'.
Proof.
  intros Hd H Hp room.
  destruct (handle_drawing_rest _ _ _ _ _ Hd H) as (_ & -> & _). apply Hp.
Qed.

Lemma run_reachable evs st st' out :
  reachable st → run evs st = Done (st', out) → reachable st'.
Proof.
  revert st out. induction evs as [|[sid rq] evs IH]; intros st out Hreach.
  - by intros [= <- _].
  - simpl. destruct (handle sid rq st) as [[st1 out1]| |] eqn:Hstep; [|done..].
    destruct (run evs st1) as [[st2 out2]| |] eqn:Hrun; [|done..].
    intros [= <- _]. eapply IH; [|done]. by eapply reach_step.
Qed.

Lemma reached_reachable st : reached_with_string_rooms st → reachable st.
Proof.
  intros (evs & out & _ & Hrun). eapply run_reachable; [constructor|done].
Qed.

Lemma strongly_sorted_seq a n : StronglySorted lt (seq a n).
Proof.
  revert a. induction n as [|n IH]; intros a; simpl; constructor; [done|].
  apply Forall_forall. intros k Hk. apply list_elem_of_In, in_seq in Hk. lia.
Qed.

(** Keeping some of the operations of a log keeps their ids in order. *)
Lemma sorted_ids_filter (P : Op.t → Prop) `{∀ o, Decision (P o)} ops :
  StronglySorted lt (Op.opId <$> ops) →
  StronglySorted lt (Op.opId <$> filter P ops).
Proof.
  induction ops as [|o ops IH]; [done|]. rewrite fmap_cons. intros Hs.
  apply StronglySorted_inv in Hs as [Hs Hall]. rewrite filter_cons.
  destruct (decide (P o)); [|by auto].
  rewrite fmap_cons. constructor; [by auto|].
  rewrite Forall_forall in Hall |- *. intros n Hn. apply Hall.
  apply list_elem_of_fmap in Hn as (o' & -> & Ho').
  apply list_elem_of_fmap. exists o'. split; [done|].
  by apply list_elem_of_filter in Ho' as [_ ?].
Qed.

End Results.

Lemma state_after_reachable evs :
  reachable (RS := spec_registry) (Scenario.state_after evs).
Proof.
  unfold Scenario.state_after.
  destruct (run evs initial) as [[st out]| |] eqn:Hrun; [|constructor..].
  eapply (run_reachable (RS := spec_registry)); [constructor|done].
Qed.

(** ** Per-user isolation and the id invariant *)

Section Isolation.
Context `{RS : RoomStore}.
Implicit Types (st : server) (sid room : string).

(** Claim C1.  Cross-user isolation: whatever sequence of draw, undo, redo
    and clear requests user [A] issues from whatever state, once the
    server has handled it, in every room every operation authored by
    another user [B] sits at the same position with the same fields,
    [active] included, as before the sequence; no operation of [B] appears
    or disappears.  The sequence is handled from every reachable state in
    which the room of [A] has a name that [Object.prototype] does not
    define. *)
Theorem cross_user_isolation st (A B : string) (reqs : list request) :
  A ≠ B → Forall drawing_request reqs →
  (∀ st' out,
     run (pair A <$> reqs) st = Done (st', out) →
     ∀ room i o, Op.userId o = B →
       (log st room !! i = Some o ↔ log st' room !! i = Some o))
  ∧ (reachable st → plain_room st A →
     ∃ st' out, run (pair A <$> reqs) st = Done (st', out)).
Proof.
  intros Hne Hall. split.
  - revert st. induction Hall as [|rq reqs Hrq _ IH]; intros st st' out.
    + by intros [= <- _].
    + rewrite fmap_cons. intros Hrun.
      apply run_cons_inv in Hrun as (st1 & out1 & out2 & Hstep & Hrun & _).
      intros room i o Ho. rewrite <- (IH _ _ _ Hrun room i o Ho).
      eapply log_step_other; [by eapply handle_log_step|congruence].
  - intros Hreach Hplain. revert st Hreach Hplain.
    induction Hall as [|rq reqs Hrq _ IH]; intros st Hreach Hplain.
    + by exists st, [].
    + destruct (handle_returns A rq st (reachable_wf _ Hreach))
        as (st1 & out1 & Hstep); [| |done|].
      { destruct rq; simpl in *; tauto. }
      { intros v ->. destruct Hrq. }
      destruct (IH st1) as (st2 & out2 & Hrun).
      { by eapply reach_step. }
      { by eapply plain_room_drawing. }
      exists st2, (out1 ++ out2). rewrite fmap_cons.
      exact (run_cons_done _ _ _ _ _ _ _ _ Hstep Hrun).
Qed.

(** Claim C2.  Gapless ids: in every reachable state, whatever requests
    led to it, the ids of the operations of every room's log are
    [0, 1, ..., n-1] in log order; and a draw request either leaves the log
    as it is or appends one operation whose id is the length of the log,
    whatever the payload holds. *)
Theorem gapless_ids st room (ops : list Op.t) :
  reachable st → roomsOperations st !! room = Some ops →
  Op.opId <$> ops = seq 0 (length ops) ∧
  ∀ sid ev st' out,
    handle sid (Draw ev) st = Done (st', out) →
    roomsOperations st' !! room = Some ops ∨
    (roomsOperations st' !! room = Some (ops ++ [new_op sid ev (length ops)]) ∧
     Op.opId (new_op sid ev (length ops)) = length ops).
Proof.
  intros Hreach Hops. split.
  - exact (wf_ids _ (reachable_wf _ Hreach) _ _ Hops).
  - intros sid ev st' out. unfold handle, on_draw.
    destruct (currentRoom st !! sid) as [[r|]|];
      try (intros [= <- _]; by left).
    destruct (room_truthy (Some r)); [|intros [= <- _]; by left].
    destruct (valid_segment ev); [|intros [= <- _]; by left].
    destruct (read_ops (roomsOperations st) r) as [ops1|v|] eqn:Hr; [|done..].
    apply read_ops_array in Hr.
    intros [= <- _]. simpl. rewrite lookup_insert.
    destruct (decide (r = room)) as [->|]; [|by left].
    right. split; [|done]. congruence.
Qed.

End Isolation.

Lemma cross_user_isolation_witness :
  ∃ st' out,
    run (RS := spec_registry)
        (pair "u1"%string <$> [Draw Scenario.stroke; Undo; Redo; Undo; Clear])
        (Scenario.state_after Scenario.two_users) = Done (st', out) ∧
    ∀ room i o, Op.userId o = "u2"%string →
      (log (Scenario.state_after Scenario.two_users) room !! i = Some o ↔
       log st' room !! i = Some o).
Proof.
  destruct (cross_user_isolation (RS := spec_registry)
              (Scenario.state_after Scenario.two_users)
              "u1"%string "u2"%string
              [Draw Scenario.stroke; Undo; Redo; Undo; Clear])
    as [Hsame Hruns].
  - discriminate.
  - repeat constructor.
  - destruct Hruns as (st' & out & Hrun).
    + apply state_after_reachable.
    + intros room Hc. vm_compute in Hc. injection Hc as <-. reflexivity.
    + exists st', out. split; [exact Hrun|]. exact (Hsame st' out Hrun).
Defined.

Lemma gapless_ids_witness :
  Op.opId <$> log (Scenario.state_after Scenario.one_undone) "default"%string
    = seq 0 (length (log (Scenario.state_after Scenario.one_undone)
                         "default"%string)).
Proof.
  apply (gapless_ids (RS := spec_registry)
           (Scenario.state_after Scenario.one_undone) "default"%string).
  - apply state_after_reachable.
  - apply (reachable_log _ "u1"%string).
    + apply state_after_reachable.
    + split; [vm_compute; reflexivity | discriminate].
    + reflexivity.
Defined.

(** ** Undo and clear *)

Section UndoClear.
Context `{RS : RoomStore}.
Implicit Types (st : server) (sid room : string).

(** Undo in a room whose name [Object.prototype] does not define: when
    [i] is the last position of the room's log holding an active
    operation of [sid], the undo request sets exactly that operation
    inactive and broadcasts its id to the room; when [sid] has no active
    operation the request emits nothing and leaves the state as it is. *)
Lemma undo_in_plain_room st sid room :
  reachable st → joined st sid room → object_prototype room = None →
  (∀ i o,
     log st room !! i = Some o → Op.userId o = sid → Op.active o = true →
     (∀ j o', i < j → log st room !! j = Some o' →
              Op.userId o' = sid → Op.active o' = false) →
     handle sid Undo st =
       Done (set_ops room (<[i := Op.set_active false o]> (log st room)) st,
             [ToRoom room (sio_members room (sio_rooms st))
                     (UndoOp (Op.opId o))]) ∧
     Op.active (Op.set_active false o) = false ∧
     same_fixed o (Op.set_active false o))
  ∧ ((∀ i o, log st room !! i = Some o → Op.userId o = sid →
             Op.active o = false) →
     handle sid Undo st = Done (st, [])).
Proof.
  intros Hreach Hj Hp. pose proof (reachable_log _ _ _ Hreach Hj Hp) as Hlog.
  destruct (undo_result _ _ _ _ Hj Hlog)
    as [(i0 & o0 & Hi0 & Hm0 & Hlast & Heq)|[Hnone Heq]].
  - apply mine_active_true in Hm0 as [Hu0 Ha0]. split.
    + intros i o Hi Hu Ha Hafter.
      split; [|split; [done|apply same_fixed_set_active]].
      destruct (lt_eq_lt_dec i i0) as [[Hlt| ->]|Hgt].
      * specialize (Hafter i0 o0 Hlt Hi0 Hu0). congruence.
      * assert (o = o0) as -> by congruence. done.
      * specialize (Hlast i o Hgt Hi). apply mine_active_false in Hlast;
          [congruence|done].
    + intros Hall. specialize (Hall i0 o0 Hi0 Hu0). congruence.
  - split; [|done]. intros i o Hi Hu Ha _.
    specialize (Hnone i o Hi). apply mine_active_false in Hnone;
      [congruence|done].
Qed.

(** Clear in a room whose name [Object.prototype] does not define: the
    request sets every active operation of [sid] in the room's log
    inactive, leaves every other operation as it is, and broadcasts to the
    room the ids of the operations it changed, in ascending order; the
    broadcast is made, with the empty list, also when [sid] has no active
    operation. *)
Lemma clear_in_plain_room st sid room :
  reachable st → joined st sid room → object_prototype room = None →
  ∃ ops' removed,
    handle sid Clear st =
      Done (set_ops room ops' st,
            [ToRoom room (sio_members room (sio_rooms st))
                    (ClearUserStrokes removed)]) ∧
    length ops' = length (log st room) ∧
    (∀ i o, log st room !! i = Some o →
       Op.userId o = sid → Op.active o = true →
       ∃ o', ops' !! i = Some o' ∧ Op.active o' = false ∧ same_fixed o o') ∧
    (∀ i o, log st room !! i = Some o →
       ¬ (Op.userId o = sid ∧ Op.active o = true) → ops' !! i = Some o) ∧
    (∀ n, n ∈ removed ↔
          ∃ i o, log st room !! i = Some o ∧ Op.userId o = sid ∧
                 Op.active o = true ∧ Op.opId o = n) ∧
    StronglySorted lt removed ∧
    ((∀ i o, log st room !! i = Some o → Op.userId o = sid →
             Op.active o = false) → removed = []).
Proof.
  intros Hreach Hj Hp. pose proof (reachable_log _ _ _ Hreach Hj Hp) as Hlog.
  set (ops := log st room) in *.
  exists (deactivate_mine sid <$> ops),
         (Op.opId <$> filter (λ o, mine_active sid o = true) ops).
  assert (∀ n, n ∈ Op.opId <$> filter (λ o, mine_active sid o = true) ops ↔
               ∃ i o, ops !! i = Some o ∧ Op.userId o = sid ∧
                      Op.active o = true ∧ Op.opId o = n) as Hmem.
  { intros n. rewrite list_elem_of_fmap. split.
    - intros (o & -> & Ho). apply list_elem_of_filter in Ho as [Hm Ho].
      apply mine_active_true in Hm as [Hu Ha].
      apply list_elem_of_lookup in Ho as [i Hi]. by exists i, o.
    - intros (i & o & Hi & Hu & Ha & <-). exists o. split; [done|].
      apply list_elem_of_filter. split.
      + by apply mine_active_true.
      + by eapply list_elem_of_lookup_2. }
  split; [by apply clear_result|]. split; [by rewrite length_fmap|].
  split; [|split; [|split; [done|split]]].
  - intros i o Hi Hu Ha. exists (Op.set_active false o).
    rewrite list_lookup_fmap, Hi. simpl. unfold deactivate_mine.
    rewrite (proj2 (mine_active_true sid o)) by done.
    split; [done|]. split; [done|apply same_fixed_set_active].
  - intros i o Hi Hd. rewrite list_lookup_fmap, Hi. simpl. f_equal.
    unfold deactivate_mine. destruct (mine_active sid o) eqn:Hm; [|done].
    by apply mine_active_true in Hm.
  - apply sorted_ids_filter.
    pose proof (wf_ids _ (reachable_wf _ Hreach) _ _ Hlog) as Hg.
    unfold gapless in Hg. rewrite Hg. apply strongly_sorted_seq.
  - intros Hnone. apply elem_of_nil_inv. intros n Hn.
    apply Hmem in Hn as (i & o & Hi & Hu & Ha & _).
    specialize (Hnone i o Hi Hu). congruence.
Qed.

(** A session joined to a room named like a property of
    [Object.prototype]: the room has no log, and [roomsOperations[room]]
    is the inherited value. *)
Lemma joined_inherited st sid room v :
  reachable st → joined st sid room → object_prototype room = Some v →
  log st room = [] ∧ read_ops (roomsOperations st) room = OpsInherited v ∧
  currentRoom st !! sid = Some (Some room) ∧
  room_truthy (Some room) = true.
Proof.
  intros Hreach Hj Hp.
  destruct (reachable_inherited _ _ _ Hreach Hp) as [Hnone Hread].
  split; [by unfold log; rewrite Hnone|]. split; [done|].
  split; [apply Hj|by eapply joined_truthy].
Qed.

(** Claim C3.  Undo in a room named like a method of [Object.prototype]
    that takes a parameter (["constructor"], ["hasOwnProperty"], ...): the
    room has no log, so a session joined to it has no active operation,
    yet its undo request is no silent no-op: the handler reads
    [ops[i].userId] of a missing element and throws. *)
Theorem undo_throws_in_inherited_room st sid room n :
  reachable st → joined st sid room →
  object_prototype room = Some (IFunction (S n)) →
  roomsOperations st !! room = None ∧
  (∀ i o, log st room !! i = Some o → Op.userId o = sid →
          Op.active o = false) ∧
  handle sid Undo st = Throws.
Proof.
  intros Hreach Hj Hp.
  destruct (joined_inherited _ _ _ _ Hreach Hj Hp) as (Hlog & Hread & Hc & Ht).
  split; [by apply (reachable_inherited _ _ _ Hreach Hp)|]. split.
  - intros i o. by rewrite Hlog.
  - unfold handle, on_undo. by rewrite Hc, Ht, Hread.
Qed.

(** Claim C4.  Clear in a room named like a property of
    [Object.prototype]: the room has no log, so a session joined to it has
    no active operation, yet its clear request does not broadcast the
    empty list: the value the handler reads has no [forEach], and the
    handler throws. *)
Theorem clear_throws_in_inherited_room st sid room v :
  reachable st → joined st sid room → object_prototype room = Some v →
  roomsOperations st !! room = None ∧
  (∀ i o, log st room !! i = Some o → Op.userId o = sid →
          Op.active o = false) ∧
  handle sid Clear st = Throws.
Proof.
  intros Hreach Hj Hp.
  destruct (joined_inherited _ _ _ _ Hreach Hj Hp) as (Hlog & Hread & Hc & Ht).
  split; [by apply (reachable_inherited _ _ _ Hreach Hp)|]. split.
  - intros i o. by rewrite Hlog.
  - unfold handle, on_clear. by rewrite Hc, Ht, Hread.
Qed.

End UndoClear.

Lemma undo_throws_in_inherited_room_witness :
  roomsOperations (Scenario.state_after Scenario.in_constructor)
    !! "constructor"%string = None ∧
  (∀ i o,
     log (Scenario.state_after Scenario.in_constructor) "constructor"%string
       !! i = Some o →
     Op.userId o = "u1"%string → Op.active o = false) ∧
  handle (RS := spec_registry) "u1"%string Undo
         (Scenario.state_after Scenario.in_constructor) = Throws.
Proof.
  apply (undo_throws_in_inherited_room (RS := spec_registry)
           (Scenario.state_after Scenario.in_constructor)
           "u1"%string "constructor"%string 0).
  - apply state_after_reachable.
  - split; [vm_compute; reflexivity | discriminate].
  - reflexivity.
Defined.

Lemma clear_throws_in_inherited_room_witness :
  roomsOperations (Scenario.state_after Scenario.in_constructor)
    !! "constructor"%string = None ∧
  (∀ i o,
     log (Scenario.state_after Scenario.in_constructor) "constructor"%string
       !! i = Some o →
     Op.userId o = "u1"%string → Op.active o = false) ∧
  handle (RS := spec_registry) "u1"%string Clear
         (Scenario.state_after Scenario.in_constructor) = Throws.
Proof.
  apply (clear_throws_in_inherited_room (RS := spec_registry)
           (Scenario.state_after Scenario.in_constructor)
           "u1"%string "constructor"%string (IFunction 1)).
  - apply state_after_reachable.
  - split; [vm_compute; reflexivity | discriminate].
  - reflexivity.
Defined.

(** ** Draw, undo, redo *)

Section RoundTrip.
Context `{RS : RoomStore}.
Implicit Types (st : server) (sid room : string).

Lemma lookup_set_ops room ops st :
  roomsOperations (set_ops room ops st) !! room = Some ops.
Proof. unfold set_ops. simpl. apply lookup_insert_eq. Qed.

Lemma new_op_mine_active sid ev n : mine_active sid (new_op sid ev n) = true.
Proof. by apply mine_active_true. Qed.

(** Claim C5 (amended).  For a session [sid] joined to a room whose name
    [Object.prototype] does not define, and a draw payload that passes the
    guard, draw, undo, redo are all handled; afterwards the appended
    operation is at its position with the geometry, owner and id it got
    at the append, and it is active again exactly when [sid] had no
    inactive operation in the room's log before the draw: redo
    reactivates the earliest inactive operation of [sid]. *)
Theorem draw_undo_redo_round_trip st sid room ev :
  reachable st → joined st sid room → object_prototype room = None →
  valid_segment ev = true →
  ∃ st' out o,
    run (draw_undo_redo sid ev) st = Done (st', out) ∧
    log st' room !! length (log st room) = Some o ∧
    same_fixed (new_op sid ev (length (log st room))) o ∧
    (Op.active o = true ↔
     ∀ i o', log st room !! i = Some o' → Op.userId o' = sid →
             Op.active o' = true).
Proof.
  intros Hreach Hj Hp Hvalid.
  pose proof (reachable_log _ _ _ Hreach Hj Hp) as Hlog.
  set (ops := log st room) in *. set (n := length ops).
  set (o := new_op sid ev n).
  assert (mine_active sid o = true) as Hmo by apply new_op_mine_active.
  (* draw *)
  pose proof (draw_result st sid room ops ev Hj Hlog) as Hdraw.
  rewrite Hvalid in Hdraw. fold n o in Hdraw.
  set (st1 := set_ops room (ops ++ [o]) st) in *.
  assert (joined st1 sid room) as Hj1 by exact Hj.
  assert ((ops ++ [o]) !! n = Some o) as Hn1 by apply list_lookup_middle, eq_refl.
  (* undo *)
  destruct (undo_result st1 sid room (ops ++ [o]) Hj1 (lookup_set_ops _ _ _))
    as [(i & oi & Hi & Hmi & Hlast & Hundo)|[Hnone _]].
  2:{ specialize (Hnone n o Hn1). congruence. }
  assert (i = n) as ->.
  { destruct (lt_eq_lt_dec i n) as [[Hlt|]|Hgt]; [|done|].
    - specialize (Hlast n o Hlt Hn1). congruence.
    - apply lookup_lt_Some in Hi. rewrite length_app in Hi. simpl in Hi.
      fold n in Hi. lia. }
  assert (oi = o) as -> by congruence. clear Hi Hmi Hlast.
  set (ops2 := <[n := Op.set_active false o]> (ops ++ [o])) in *.
  set (st2 := set_ops room ops2 st1) in *.
  assert (joined st2 sid room) as Hj2 by exact Hj.
  assert (n < length (ops ++ [o])) as Hlen1.
  { rewrite length_app. simpl. fold n. lia. }
  assert (ops2 !! n = Some (Op.set_active false o)) as Hn2.
  { by apply list_lookup_insert_eq. }
  assert (∀ j, j < n → ops2 !! j = ops !! j) as Hbelow.
  { intros j Hjn. unfold ops2.
    rewrite list_lookup_insert_ne by lia. by apply lookup_app_l. }
  (* redo *)
  destruct (redo_result st2 sid room ops2 Hj2 (lookup_set_ops _ _ _))
    as [(j & oj & Hoj & Hmj & Hfirst & Hredo)|[Hnone _]].
  2:{ specialize (Hnone n _ Hn2). by apply mine_inactive_false in Hnone. }
  assert (length ops2 = S n) as Hlen2.
  { unfold ops2. rewrite length_insert, length_app. simpl. fold n. lia. }
  assert (run (draw_undo_redo sid ev) st =
          Done (set_ops room (<[j := Op.set_active true oj]> ops2) st2,
                [ToRoom room (sio_members room (sio_rooms st)) (DrawMsg o);
                 ToRoom room (sio_members room (sio_rooms st))
                        (UndoOp (Op.opId o));
                 ToRoom room (sio_members room (sio_rooms st))
                        (RedoOp (Op.opId oj))])) as Hrun.
  { unfold draw_undo_redo. cbn [run]. by rewrite Hdraw, Hundo, Hredo. }
  destruct (decide (j = n)) as [->|Hjn].
  - (* the appended operation is the earliest inactive one *)
    assert (oj = Op.set_active false o) as -> by congruence.
    eexists _, _, o. split; [exact Hrun|]. split; [|split].
    + rewrite log_set_ops, decide_True by done.
      rewrite list_lookup_insert_eq by lia. done.
    + apply same_fixed_refl.
    + split; [|done]. intros _ i o' Hi Hu.
      assert (i < n) as Hin by (by eapply lookup_lt_Some).
      specialize (Hfirst i o' Hin). rewrite Hbelow in Hfirst by done.
      apply mine_inactive_false in Hfirst; auto.
  - (* an earlier inactive operation of [sid] is reactivated instead *)
    assert (j < n) as Hlt.
    { apply lookup_lt_Some in Hoj. lia. }
    eexists _, _, (Op.set_active false o). split; [exact Hrun|].
    split; [|split].
    + rewrite log_set_ops, decide_True by done.
      rewrite list_lookup_insert_ne by done. done.
    + apply same_fixed_set_active.
    + split; [done|]. intros Hall. exfalso.
      rewrite Hbelow in Hoj by done.
      apply mine_inactive_true in Hmj as [Hu Ha].
      specialize (Hall j oj Hoj Hu). congruence.
Qed.

End RoundTrip.

(** Claim C5 as stated fails: [u1] has undone its first stroke; it draws a
    second one, undoes it, and the redo reactivates the first stroke, so the
    second one stays inactive. *)
Lemma round_trip_fails_after_undo :
  reachable (Scenario.state_after Scenario.one_undone) ∧
  joined (Scenario.state_after Scenario.one_undone) "u1"%string "default"%string ∧
  valid_segment Scenario.stroke = true ∧
  ¬ round_trip_restores (Scenario.state_after Scenario.one_undone)
      "u1"%string "default"%string Scenario.stroke.
Proof.
  split; [apply state_after_reachable|].
  split; [split; [vm_compute; reflexivity | discriminate]|].
  split; [reflexivity|].
  intros (st' & out & Hrun & Hlook).
  apply (returned_done _ _ (initial, [])) in Hrun.
  assert (st' = (returned (run (draw_undo_redo "u1"%string Scenario.stroke)
                             (Scenario.state_after Scenario.one_undone))
                          (initial, [])).1) as -> by (by rewrite Hrun).
  apply (f_equal (fmap Op.active)) in Hlook.
  vm_compute in Hlook. discriminate Hlook.
Qed.

Lemma draw_undo_redo_round_trip_witness :
  ∃ st' out o,
    run (RS := spec_registry) (draw_undo_redo "u2"%string Scenario.stroke)
        (Scenario.state_after Scenario.one_undone) = Done (st', out) ∧
    log st' "default"%string
      !! length (log (Scenario.state_after Scenario.one_undone) "default"%string)
      = Some o ∧
    same_fixed
      (new_op "u2"%string Scenario.stroke
         (length (log (Scenario.state_after Scenario.one_undone)
                      "default"%string))) o ∧
    (Op.active o = true ↔
     ∀ i o', log (Scenario.state_after Scenario.one_undone) "default"%string
               !! i = Some o' →
             Op.userId o' = "u2"%string → Op.active o' = true).
Proof.
  apply (draw_undo_redo_round_trip (RS := spec_registry)
           (Scenario.state_after Scenario.one_undone)
           "u2"%string "default"%string Scenario.stroke).
  - apply state_after_reachable.
  - split; [vm_compute; reflexivity | discriminate].
  - reflexivity.
  - reflexivity.
Defined.

(** ** Room membership on join *)

Section Join.
Context `{RS : RoomStore}.
Implicit Types (st : server) (sid room : string).

(** A session whose [currentRoom] is a truthy name leaves that room when
    it joins another. *)
Lemma join_leaves_previous st sid old room st' out :
  joined st sid old → old ≠ room →
  handle sid (JoinRoom (JStr room)) st = Done (st', out) →
  (sid ∉ sio_members old (sio_rooms st')) ∧
  (sid ∈ sio_members room (sio_rooms st')) ∧
  currentRoom st' !! sid = Some (Some room).
Proof.
  intros Hj Hne. pose proof (joined_truthy _ _ _ Hj) as Ht.
  destruct Hj as [Hcur _]. unfold handle, on_join. rewrite Hcur, Ht.
  destruct (users st !! sid); [|done]. intros [= <- _]. simpl.
  rewrite !sio_members_join, sio_members_leave, lookup_insert_eq.
  rewrite decide_False by done. rewrite !decide_True by done.
  set_solver.
Qed.


End Join.

(** Claim C6, evaluated on the code: a session that joined the room with
    the empty name and then joins ["default"] is in both Socket.IO rooms;
    the handler skipped [socket.leave] because its [currentRoom], the empty
    string, is falsy. *)
Lemma join_after_empty_room_keeps_both :
  ∃ st out,
    run (RS := spec_registry) Scenario.empty_then_default initial =
      Done (st, out) ∧
    currentRoom st !! "u1"%string = Some (Some "default"%string) ∧
    "u1"%string ∈ sio_members ""%string (sio_rooms st) ∧
    "u1"%string ∈ sio_members "default"%string (sio_rooms st) ∧
    ¬ in_at_most_one_room st "u1"%string.
Proof.
  pose proof (done_returned
                (run (RS := spec_registry) Scenario.empty_then_default initial)
                (initial, []) eq_refl) as Hrun.
  destruct (returned _ _) as [st out] eqn:Hret in Hrun.
  assert (st = Scenario.state_after Scenario.empty_then_default) as ->.
  { unfold Scenario.state_after. by rewrite Hrun. }
  exists (Scenario.state_after Scenario.empty_then_default), out.
  assert ("u1"%string ∈ sio_members ""%string
            (sio_rooms (Scenario.state_after Scenario.empty_then_default)))
    as Hin1.
  { by_computation. }
  assert ("u1"%string ∈ sio_members "default"%string
            (sio_rooms (Scenario.state_after Scenario.empty_then_default)))
    as Hin2.
  { by_computation. }
  split; [exact Hrun|]. split; [vm_compute; reflexivity|].
  split; [exact Hin1|]. split; [exact Hin2|].
  intros Hone.
  assert (""%string = "default"%string) as Heq
    by (apply Hone; [discriminate|discriminate|exact Hin1|exact Hin2]).
  discriminate Heq.
Qed.


(** ** The frame of every request *)

Section Frame.
Context `{RS : RoomStore}.
Implicit Types (st : server) (sid room : string).

(** Claim C7.  Immutability frame: whatever sequence of requests
    (connection, join, draw, clear, undo, redo, cursor, disconnect) the
    server has processed from whatever state, every operation of every log
    is afterwards in the same log at the same position with the same
    owner, id, coordinates, colour, size, tool and client id; only
    [active] may differ. *)
Theorem immutability_frame st (evs : list (string * request)) st' out :
  run evs st = Done (st', out) →
  ∀ room i o, log st room !! i = Some o →
    ∃ o', log st' room !! i = Some o' ∧
          Op.userId o' = Op.userId o ∧ Op.opId o' = Op.opId o ∧
          Op.prevX o' = Op.prevX o ∧ Op.prevY o' = Op.prevY o ∧
          Op.x o' = Op.x o ∧ Op.y o' = Op.y o ∧
          Op.color o' = Op.color o ∧ Op.size o' = Op.size o ∧
          Op.tool o' = Op.tool o ∧ Op.clientId o' = Op.clientId o.
Proof.
  revert st out. induction evs as [|[sid rq] evs IH]; intros st out.
  - intros [= <- _] room i o Hi. exists o.
    split; [done|]. apply same_fixed_refl.
  - intros Hrun room i o Hi.
    apply run_cons_inv in Hrun as (st1 & out1 & out2 & Hstep & Hrun & _).
    destruct (log_step_frame sid _ _ i o (handle_log_step _ _ _ _ _ room Hstep) Hi)
      as (o1 & Hi1 & Hfix1).
    destruct (IH _ _ Hrun room i o1 Hi1) as (o2 & Hi2 & Hfix2).
    exists o2. split; [done|].
    exact (same_fixed_trans _ _ _ Hfix1 Hfix2).
Qed.

End Frame.

Lemma immutability_frame_witness :
  is_done
    (run (RS := spec_registry)
       [("u1"%string, Clear);
        ("u2"%string, JoinRoom (JStr "lobby"%string));
        ("u1"%string, Redo); ("u1"%string, Cursor Scenario.position);
        ("u2"%string, Disconnect);
        ("u1"%string, Draw Scenario.stroke)]
       (Scenario.state_after Scenario.two_users)) = true
  ∧ ∀ room i o,
      log (Scenario.state_after Scenario.two_users) room !! i = Some o →
      ∃ o',
        log (returned
               (run (RS := spec_registry)
                  [("u1"%string, Clear);
                   ("u2"%string, JoinRoom (JStr "lobby"%string));
                   ("u1"%string, Redo); ("u1"%string, Cursor Scenario.position);
                   ("u2"%string, Disconnect);
                   ("u1"%string, Draw Scenario.stroke)]
                  (Scenario.state_after Scenario.two_users))
               (initial, [])).1 room !! i = Some o' ∧
        Op.userId o' = Op.userId o ∧ Op.opId o' = Op.opId o ∧
        Op.prevX o' = Op.prevX o ∧ Op.prevY o' = Op.prevY o ∧
        Op.x o' = Op.x o ∧ Op.y o' = Op.y o ∧
        Op.color o' = Op.color o ∧ Op.size o' = Op.size o ∧
        Op.tool o' = Op.tool o ∧ Op.clientId o' = Op.clientId o.
Proof.
  split; [vm_compute; reflexivity|].
  eapply (immutability_frame (RS := spec_registry)).
  rewrite <- surjective_pairing. apply done_returned.
  vm_compute. reflexivity.
Defined.

(** ** Draw guard and cursor relay *)

Section DrawCursor.
Context `{RS : RoomStore}.
Implicit Types (st : server) (sid room : string).

Lemma field_number ev k :
  is_number (field ev k) = true ↔ ∃ q, getProp ev k = Some (JNum q).
Proof.
  unfold field. split.
  - destruct (getProp ev k) as [[]|]; simpl; try discriminate. eauto.
  - by intros [q ->].
Qed.

(** The guard of the draw handler holds exactly when the four
    coordinates are present and numbers. *)
Lemma valid_segment_iff ev :
  valid_segment ev = true ↔ all_numbers coordinate_fields ev.
Proof.
  unfold valid_segment, all_numbers, coordinate_fields.
  rewrite !andb_true_iff, !field_number. split.
  - intros ((((_ & H1) & H2) & H3) & H4) k Hk.
    repeat (apply elem_of_cons in Hk as [->|Hk]; [done|]).
    by apply elem_of_nil in Hk.
  - intros Hall.
    assert (∃ q, getProp ev "prevX" = Some (JNum q)) as H1.
    { apply Hall. set_solver. }
    repeat split; try (apply Hall; set_solver).
    destruct H1 as [q H1]. by destruct ev.
Qed.

Lemma not_joined_cases st sid :
  ¬ (∃ room, joined st sid room) →
  currentRoom st !! sid = None ∨
  ∃ cur, currentRoom st !! sid = Some cur ∧ room_truthy cur = false.
Proof.
  intros Hnot. destruct (currentRoom st !! sid) as [cur|] eqn:Hcur; [|by left].
  right. exists cur. split; [done|].
  destruct cur as [room|]; [|done].
  destruct (room_truthy (Some room)) eqn:Ht; [|done].
  exfalso. apply Hnot. exists room. split; [done|]. by apply room_truthy_Some.
Qed.

(** Claim C8 (amended).  A draw request is dropped (nothing appended, the
    state unchanged, nothing emitted, no exception) when one of the four
    coordinates [prevX], [prevY], [x], [y] is missing or not a number, or
    when the session has no current room; otherwise, the session being
    joined to a room whose name [Object.prototype] does not define and the
    four coordinates being numbers, the operation is appended to the
    room's log and broadcast to the room, whatever [color], [size] and
    [tool] are. *)
Theorem draw_drop_conditions st sid ev :
  reachable st →
  ((¬ all_numbers coordinate_fields ev ∨ ¬ (∃ room, joined st sid room)) →
   handle sid (Draw ev) st = Done (st, []))
  ∧ (∀ room, all_numbers coordinate_fields ev → joined st sid room →
       object_prototype room = None →
       handle sid (Draw ev) st =
         Done (set_ops room
                 (log st room ++ [new_op sid ev (length (log st room))]) st,
               [ToRoom room (sio_members room (sio_rooms st))
                       (DrawMsg (new_op sid ev (length (log st room))))])).
Proof.
  intros Hreach. split.
  - intros [Hbad|Hnot].
    + assert (valid_segment ev = false) as Hv.
      { destruct (valid_segment ev) eqn:Hv; [|done].
        by apply valid_segment_iff in Hv. }
      unfold handle, on_draw. rewrite Hv.
      destruct (currentRoom st !! sid) as [[room|]|]; try done.
      by destruct (room_truthy (Some room)).
    + unfold handle, on_draw.
      destruct (not_joined_cases _ _ Hnot) as [->|(cur & -> & Ht)]; [done|].
      destruct cur as [room|]; [|done]. by rewrite Ht.
  - intros room Hnum Hj Hp. apply valid_segment_iff in Hnum.
    rewrite (draw_result st sid room (log st room) ev Hj
               (reachable_log _ _ _ Hreach Hj Hp)).
    by rewrite Hnum.
Qed.

(** Claim C9 (amended).  A cursor message with a payload, from a session
    joined to a room, is broadcast once, tagged with the sender's id, to
    every current member of the room, the sender included, and the state
    is left as it is; a cursor message from a session with no current
    room emits nothing. *)
Theorem cursor_relay st sid pos :
  reachable st →
  (∀ room, joined st sid room → pos ≠ JUndefined → pos ≠ JNull →
     sid ∈ sio_members room (sio_rooms st) ∧
     handle sid (Cursor pos) st =
       Done (st, [ToRoom room (sio_members room (sio_rooms st))
                    (CursorMsg sid (field pos "x") (field pos "y")
                               (field pos "color"))]))
  ∧ (¬ (∃ room, joined st sid room) →
     handle sid (Cursor pos) st = Done (st, [])).
Proof.
  intros Hreach. split.
  - intros room Hj H1 H2. split.
    + destruct Hj as [Hcur _]. by eapply wf_member; [apply reachable_wf|].
    + by apply cursor_result.
  - intros Hnot. unfold handle, on_cursor.
    destruct (not_joined_cases _ _ Hnot) as [->|(cur & -> & Ht)]; [done|].
    destruct cur as [room|]; [|done]. by rewrite Ht.
Qed.

End DrawCursor.

(** Claim C8 as stated fails: a payload with its four coordinates and no
    [color], [size] or [tool] lacks geometry fields, yet the draw is
    appended and broadcast. *)
Lemma draw_without_size_is_appended :
  reachable (Scenario.state_after Scenario.two_users) ∧
  joined (Scenario.state_after Scenario.two_users) "u1"%string "default"%string ∧
  lacks_field geometry_fields Scenario.bare_segment ∧
  handle "u1"%string (Draw Scenario.bare_segment)
         (Scenario.state_after Scenario.two_users) =
    Done (set_ops "default"%string
            (log (Scenario.state_after Scenario.two_users) "default"%string ++
             [new_op "u1"%string Scenario.bare_segment
                (length (log (Scenario.state_after Scenario.two_users)
                             "default"%string))])
            (Scenario.state_after Scenario.two_users),
          [ToRoom "default"%string
             (sio_members "default"%string
                (sio_rooms (Scenario.state_after Scenario.two_users)))
             (DrawMsg
                (new_op "u1"%string Scenario.bare_segment
                   (length (log (Scenario.state_after Scenario.two_users)
                                "default"%string))))]) ∧
  ¬ drops_incomplete_geometry (Scenario.state_after Scenario.two_users)
      "u1"%string Scenario.bare_segment.
Proof.
  pose proof (state_after_reachable Scenario.two_users) as Hreach.
  assert (joined (Scenario.state_after Scenario.two_users)
                 "u1"%string "default"%string) as Hj.
  { split; [vm_compute; reflexivity | discriminate]. }
  assert (lacks_field geometry_fields Scenario.bare_segment) as Hlacks.
  { exists "size"%string. split; [|reflexivity].
    unfold geometry_fields. set_solver. }
  pose proof (draw_result _ _ _ _ Scenario.bare_segment Hj
                (reachable_log _ _ _ Hreach Hj eq_refl)) as Hdraw.
  change (valid_segment Scenario.bare_segment) with true in Hdraw.
  cbv iota in Hdraw.
  split; [exact Hreach|]. split; [exact Hj|]. split; [exact Hlacks|].
  split; [exact Hdraw|].
  intros Hclaim. specialize (Hclaim Hlacks). unfold dropped in Hclaim.
  rewrite Hdraw in Hclaim.
  apply (f_equal (λ r, match r with
                       | Done (_, out) => length out
                       | Throws | Unmodelled => 0
                       end)) in Hclaim.
  cbv beta iota in Hclaim. discriminate Hclaim.
Qed.

Lemma draw_drop_conditions_witness :
  handle (RS := spec_registry) "u1"%string (Draw (JObj [("x"%string, Scenario.num 3)]))
         (Scenario.state_after Scenario.two_users) =
    Done (Scenario.state_after Scenario.two_users, [])
  ∧ handle (RS := spec_registry) "u1"%string (Draw Scenario.stroke)
         (Scenario.state_after Scenario.two_users) =
    Done (set_ops "default"%string
            (log (Scenario.state_after Scenario.two_users) "default"%string ++
             [new_op "u1"%string Scenario.stroke
                (length (log (Scenario.state_after Scenario.two_users)
                             "default"%string))])
            (Scenario.state_after Scenario.two_users),
          [ToRoom "default"%string
             (sio_members "default"%string
                (sio_rooms (Scenario.state_after Scenario.two_users)))
             (DrawMsg
                (new_op "u1"%string Scenario.stroke
                   (length (log (Scenario.state_after Scenario.two_users)
                                "default"%string))))]).
Proof.
  split.
  - destruct (draw_drop_conditions (RS := spec_registry)
                (Scenario.state_after Scenario.two_users) "u1"%string
                (JObj [("x"%string, Scenario.num 3)])
                (state_after_reachable _)) as [Hdrop _].
    apply Hdrop. left. intros Hall.
    destruct (Hall "prevX"%string) as [q Hq].
    + unfold coordinate_fields. set_solver.
    + discriminate.
  - destruct (draw_drop_conditions (RS := spec_registry)
                (Scenario.state_after Scenario.two_users) "u1"%string
                Scenario.stroke (state_after_reachable _)) as [_ Happend].
    apply (Happend "default"%string).
    + apply valid_segment_iff. reflexivity.
    + split; [vm_compute; reflexivity | discriminate].
    + reflexivity.
Defined.

(** Claim C9 as stated fails: the cursor broadcast of [u1] goes to the
    whole room, [u1] included, not to the members other than [u1]. *)
Lemma cursor_reaches_sender :
  reachable (Scenario.state_after Scenario.two_users) ∧
  joined (Scenario.state_after Scenario.two_users) "u1"%string "default"%string ∧
  handle "u1"%string (Cursor Scenario.position)
         (Scenario.state_after Scenario.two_users) =
    Done (Scenario.state_after Scenario.two_users,
          [ToRoom "default"%string
             (sio_members "default"%string
                (sio_rooms (Scenario.state_after Scenario.two_users)))
             (CursorMsg "u1"%string (Scenario.num 7) (Scenario.num 9)
                        (JStr "#4ECDC4"))]) ∧
  "u1"%string ∈ sio_members "default"%string
                  (sio_rooms (Scenario.state_after Scenario.two_users)) ∧
  ¬ relays_to_others (Scenario.state_after Scenario.two_users)
      "u1"%string "default"%string Scenario.position.
Proof.
  pose proof (state_after_reachable Scenario.two_users) as Hreach.
  assert (joined (Scenario.state_after Scenario.two_users)
                 "u1"%string "default"%string) as Hj.
  { split; [vm_compute; reflexivity | discriminate]. }
  assert ("u1"%string ∈ sio_members "default"%string
            (sio_rooms (Scenario.state_after Scenario.two_users))) as Hin.
  { by_computation. }
  pose proof (cursor_result _ _ _ Scenario.position Hj
                ltac:(discriminate) ltac:(discriminate)) as Hcursor.
  split; [exact Hreach|]. split; [exact Hj|]. split; [exact Hcursor|].
  split; [exact Hin|].
  intros (m & Hrelay). rewrite Hcursor in Hrelay.
  apply (f_equal (λ r, match r with
                       | Done (_, [ToRoom _ targets _]) => targets
                       | _ => ∅
                       end)) in Hrelay.
  cbv beta iota in Hrelay. rewrite Hrelay in Hin. set_solver.
Qed.

Lemma cursor_relay_witness :
  "u2"%string ∈ sio_members "default"%string
                  (sio_rooms (Scenario.state_after Scenario.two_users)) ∧
  handle (RS := spec_registry) "u2"%string (Cursor Scenario.position)
         (Scenario.state_after Scenario.two_users) =
    Done (Scenario.state_after Scenario.two_users,
          [ToRoom "default"%string
             (sio_members "default"%string
                (sio_rooms (Scenario.state_after Scenario.two_users)))
             (CursorMsg "u2"%string (Scenario.num 7) (Scenario.num 9)
                        (JStr "#4ECDC4"))]).
Proof.
  destruct (cursor_relay (RS := spec_registry)
              (Scenario.state_after Scenario.two_users) "u2"%string
              Scenario.position (state_after_reachable _)) as [Hrelay _].
  apply (Hrelay "default"%string).
  - split; [vm_compute; reflexivity | discriminate].
  - discriminate.
  - discriminate.
Defined.

(** ** Redo, and how undo, redo, draw and clear compose *)

Section Compose.
Context `{RS : RoomStore}.
Implicit Types (st : server) (sid room : string).

Lemma set_ops_set_ops room ops1 ops2 st :
  set_ops room ops2 (set_ops room ops1 st) = set_ops room ops2 st.
Proof. unfold set_ops. simpl. by rewrite insert_insert_eq. Qed.

Lemma set_active_true_false o :
  Op.active o = true → Op.set_active true (Op.set_active false o) = o.
Proof. destruct o. simpl. by intros ->. Qed.

(** Redo: for a session [sid] joined to a room whose name
    [Object.prototype] does not define, when [i] is the first position of
    the room's log holding an inactive operation of [sid], the redo request
    replaces exactly that operation by its active copy, all other fields
    kept, and broadcasts its id to the room; when [sid] has no inactive
    operation the request emits nothing and leaves the state as it is. *)
Theorem redo_semantics st sid room :
  reachable st → joined st sid room → object_prototype room = None →
  (∀ i o,
     log st room !! i = Some o → Op.userId o = sid → Op.active o = false →
     (∀ j o', j < i → log st room !! j = Some o' →
              Op.userId o' = sid → Op.active o' = true) →
     handle sid Redo st =
       Done (set_ops room (<[i := Op.set_active true o]> (log st room)) st,
             [ToRoom room (sio_members room (sio_rooms st))
                     (RedoOp (Op.opId o))]) ∧
     Op.active (Op.set_active true o) = true ∧
     same_fixed o (Op.set_active true o))
  ∧ ((∀ i o, log st room !! i = Some o → Op.userId o = sid →
             Op.active o = true) →
     handle sid Redo st = Done (st, [])).
Proof.
  intros Hreach Hj Hp. pose proof (reachable_log _ _ _ Hreach Hj Hp) as Hlog.
  destruct (redo_result _ _ _ _ Hj Hlog)
    as [(i0 & o0 & Hi0 & Hm0 & Hfirst & Heq)|[Hnone Heq]].
  - apply mine_inactive_true in Hm0 as [Hu0 Ha0]. split.
    + intros i o Hi Hu Ha Hbefore.
      split; [|split; [done|apply same_fixed_set_active]].
      destruct (lt_eq_lt_dec i i0) as [[Hlt| ->]|Hgt].
      * specialize (Hfirst i o Hlt Hi). apply mine_inactive_false in Hfirst;
          [congruence|done].
      * assert (o = o0) as -> by congruence. done.
      * specialize (Hbefore i0 o0 Hgt Hi0 Hu0). congruence.
    + intros Hall. specialize (Hall i0 o0 Hi0 Hu0). congruence.
  - split; [|done]. intros i o Hi Hu Ha _.
    specialize (Hnone i o Hi). apply mine_inactive_false in Hnone;
      [congruence|done].
Qed.

(** Undo then redo is the identity for a user without inactive
    operations, in a room whose name [Object.prototype] does not define:
    the state is exactly as before, and the two broadcasts, if any, name
    the same operation. *)
Theorem undo_redo_identity st sid room :
  reachable st → joined st sid room → object_prototype room = None →
  (∀ i o, log st room !! i = Some o → Op.userId o = sid →
          Op.active o = true) →
  ∃ out,
    run [(sid, Undo); (sid, Redo)] st = Done (st, out) ∧
    (out = [] ∨
     ∃ n, out = [ToRoom room (sio_members room (sio_rooms st)) (UndoOp n);
                 ToRoom room (sio_members room (sio_rooms st)) (RedoOp n)]).
Proof.
  intros Hreach Hj Hp Hall.
  pose proof (reachable_log _ _ _ Hreach Hj Hp) as Hlog.
  set (ops := log st room) in *.
  destruct (undo_result _ _ _ _ Hj Hlog)
    as [(i & o & Hi & Hm & _ & Hundo)|[Hnone Hundo]].
  - apply mine_active_true in Hm as [Hu Ha].
    set (ops1 := <[i := Op.set_active false o]> ops) in *.
    set (st1 := set_ops room ops1 st) in *.
    assert (joined st1 sid room) as Hj1 by exact Hj.
    assert (i < length ops) as Hlen by (by eapply lookup_lt_Some).
    assert (ops1 !! i = Some (Op.set_active false o)) as Hi1.
    { by apply list_lookup_insert_eq. }
    destruct (redo_result st1 sid room ops1 Hj1)
      as [(j & oj & Hoj & Hmj & Hfirst & Hredo)|[Hnone _]].
    { unfold st1, set_ops. simpl. apply lookup_insert_eq. }
    2:{ specialize (Hnone i _ Hi1). by apply mine_inactive_false in Hnone. }
    assert (j = i) as ->.
    { destruct (lt_eq_lt_dec j i) as [[Hlt|]|Hgt]; [|done|].
      - unfold ops1 in Hoj. rewrite list_lookup_insert_ne in Hoj by lia.
        apply mine_inactive_true in Hmj as [Huj Haj].
        specialize (Hall j oj Hoj Huj). congruence.
      - specialize (Hfirst i _ Hgt Hi1).
        by apply mine_inactive_false in Hfirst. }
    assert (oj = Op.set_active false o) as -> by congruence.
    exists [ToRoom room (sio_members room (sio_rooms st)) (UndoOp (Op.opId o));
            ToRoom room (sio_members room (sio_rooms st)) (RedoOp (Op.opId o))].
    split; [|right; by exists (Op.opId o)].
    cbn [run]. rewrite Hundo, Hredo. do 2 f_equal.
    unfold st1, ops1. rewrite set_ops_set_ops, list_insert_insert_eq.
    rewrite set_active_true_false by done.
    rewrite list_insert_id by done. by apply set_ops_id.
  - exists []. split; [|by left]. cbn [run]. rewrite Hundo.
    destruct (redo_result _ _ _ _ Hj Hlog)
      as [(j & oj & Hoj & Hmj & _)|[_ Hredo]].
    + apply mine_inactive_true in Hmj as [Huj Haj].
      specialize (Hall j oj Hoj Huj). congruence.
    + by rewrite Hredo.
Qed.

(** Undo is the inverse of the draw just made, as far as the canvas goes:
    after a draw that passes the guard and an undo by the same session,
    joined to a room whose name [Object.prototype] does not define, every
    room shows the operations it showed before, and the log of the
    session's room is one operation longer. *)
Theorem draw_undo_visible st sid room ev :
  reachable st → joined st sid room → object_prototype room = None →
  valid_segment ev = true →
  ∃ st' out,
    run [(sid, Draw ev); (sid, Undo)] st = Done (st', out) ∧
    (∀ r, visible (log st' r) = visible (log st r)) ∧
    length (log st' room) = S (length (log st room)).
Proof.
  intros Hreach Hj Hp Hvalid.
  pose proof (reachable_log _ _ _ Hreach Hj Hp) as Hlog.
  set (ops := log st room) in *. set (n := length ops).
  set (o := new_op sid ev n).
  assert (mine_active sid o = true) as Hmo by (by apply mine_active_true).
  pose proof (draw_result st sid room ops ev Hj Hlog) as Hdraw.
  rewrite Hvalid in Hdraw. fold n o in Hdraw.
  set (st1 := set_ops room (ops ++ [o]) st) in *.
  assert (joined st1 sid room) as Hj1 by exact Hj.
  assert ((ops ++ [o]) !! n = Some o) as Hn1
    by apply list_lookup_middle, eq_refl.
  destruct (undo_result st1 sid room (ops ++ [o]) Hj1)
    as [(i & oi & Hi & Hmi & Hlast & Hundo)|[Hnone _]].
  { unfold st1, set_ops. simpl. apply lookup_insert_eq. }
  2:{ specialize (Hnone n o Hn1). congruence. }
  assert (i = n) as ->.
  { destruct (lt_eq_lt_dec i n) as [[Hlt|]|Hgt]; [|done|].
    - specialize (Hlast n o Hlt Hn1). congruence.
    - apply lookup_lt_Some in Hi. rewrite length_app in Hi. simpl in Hi.
      fold n in Hi. lia. }
  assert (oi = o) as -> by congruence.
  assert (<[n := Op.set_active false o]> (ops ++ [o]) =
          ops ++ [Op.set_active false o]) as Hins.
  { unfold n. rewrite insert_app_r_alt by lia.
    by rewrite Nat.sub_diag. }
  rewrite Hins in Hundo. eexists _, _. split.
  { cbn [run]. rewrite Hdraw, Hundo. reflexivity. }
  split.
  - intros r. unfold st1. rewrite set_ops_set_ops, log_set_ops.
    destruct (decide (room = r)) as [<-|]; [|done].
    fold ops. unfold visible. rewrite filter_app.
    rewrite filter_cons_False by (simpl; congruence).
    by rewrite filter_nil, app_nil_r.
  - unfold st1. rewrite set_ops_set_ops, log_set_ops, decide_True by done.
    rewrite length_app. simpl. fold n. lia.
Qed.

Lemma deactivate_mine_not_active sid o :
  mine_active sid (deactivate_mine sid o) = false.
Proof.
  unfold deactivate_mine. destruct (mine_active sid o) eqn:Hm; [|done].
  apply mine_active_false. done.
Qed.

(** After a clear in a room whose name [Object.prototype] does not
    define, the session has nothing left to clear or undo: none of its
    operations in the room is active, a second clear broadcasts the empty
    list and an undo emits nothing, and both leave the state as the first
    clear left it. *)
Theorem clear_leaves_nothing_active st sid room :
  reachable st → joined st sid room → object_prototype room = None →
  ∃ st1 out1,
    handle sid Clear st = Done (st1, out1) ∧
    (∀ i o, log st1 room !! i = Some o → Op.userId o = sid →
            Op.active o = false) ∧
    handle sid Clear st1 =
      Done (st1, [ToRoom room (sio_members room (sio_rooms st1))
                         (ClearUserStrokes [])]) ∧
    handle sid Undo st1 = Done (st1, []).
Proof.
  intros Hreach Hj Hp. pose proof (reachable_log _ _ _ Hreach Hj Hp) as Hlog.
  set (ops := log st room) in *.
  set (ops1 := deactivate_mine sid <$> ops).
  set (st1 := set_ops room ops1 st).
  assert (joined st1 sid room) as Hj1 by exact Hj.
  assert (roomsOperations st1 !! room = Some ops1) as Hlog1.
  { unfold st1, set_ops. simpl. apply lookup_insert_eq. }
  assert (∀ i o, ops1 !! i = Some o → mine_active sid o = false) as Hnone.
  { intros i o. unfold ops1. rewrite list_lookup_fmap.
    destruct (ops !! i) as [o0|]; [|done]. simpl. intros [= <-].
    apply deactivate_mine_not_active. }
  eexists st1, _. split; [by apply clear_result|]. split; [|split].
  - intros i o Hi Hu. rewrite (log_lookup _ _ _ Hlog1) in Hi.
    specialize (Hnone i o Hi). by apply mine_active_false in Hnone.
  - rewrite (clear_result st1 sid room ops1 Hj1 Hlog1).
    assert (filter (λ o, mine_active sid o = true) ops1 = []) as ->.
    { apply elem_of_nil_inv. intros o Ho.
      apply list_elem_of_filter in Ho as [Hm Ho].
      apply list_elem_of_lookup in Ho as [i Hi].
      specialize (Hnone i o Hi). congruence. }
    assert (deactivate_mine sid <$> ops1 = ops1) as ->.
    { apply list_eq. intros i. rewrite list_lookup_fmap.
      destruct (ops1 !! i) as [o|] eqn:Hi; [|done]. simpl. f_equal.
      unfold deactivate_mine. by rewrite (Hnone i o Hi). }
    by rewrite set_ops_id.
  - destruct (undo_result st1 sid room ops1 Hj1 Hlog1)
      as [(i & o & Hi & Hm & _)|[_ Hundo]]; [|done].
    specialize (Hnone i o Hi). congruence.
Qed.

End Compose.

(** ** Rooms, sessions without a room, and exceptions *)

Section Rooms.
Context `{RS : RoomStore}.
Implicit Types (st : server) (sid room r : string).

Lemma join_returns st sid cur room :
  wf st → currentRoom st !! sid = Some cur →
  ∃ st' out, on_join sid cur room st = Done (st', out).
Proof.
  intros Hwf Hcur. unfold on_join.
  destruct (wf_users _ Hwf sid) as [u ->]; eauto.
Qed.

Lemma joined_of_truthy st sid room :
  currentRoom st !! sid = Some (Some room) →
  room_truthy (Some room) = true → joined st sid room.
Proof. intros Hcur Ht. split; [done|by apply room_truthy_Some]. Qed.

(** A request leaves alone the log of a room its session is not joined
    to. *)
Lemma other_rooms_unchanged st sid rq st' out r :
  handle sid rq st = Done (st', out) → ¬ joined st sid r →
  log st' r = log st r.
Proof.
  intros H Hnot.
  destruct rq;
    try (apply (handle_other_log _ _ _ _ _ r H); simpl; tauto);
    unfold handle in H; destruct (currentRoom st !! sid) as [cur|] eqn:Hcur;
    try (by injection H as <- _);
    unfold on_draw, on_clear, on_undo, on_redo in H;
    (destruct cur as [room|]; [|by injection H as <- _]);
    (destruct (room_truthy (Some room)) eqn:Ht; [|by injection H as <- _]);
    assert (room ≠ r) as Hne
      by (intros ->; apply Hnot; split; [done|by apply room_truthy_Some]).
  - destruct (valid_segment ev); [|by injection H as <- _].
    destruct (read_ops (roomsOperations st) room); [|done..].
    injection H as <- _. by rewrite log_set_ops, decide_False.
  - destruct (read_ops (roomsOperations st) room); [|done..].
    destruct (clear_loop _ _ _). injection H as <- _.
    by rewrite log_set_ops, decide_False.
  - destruct (read_ops (roomsOperations st) room); [| |done].
    + destruct (undo_loop _ _ _ _ _) as [[? ?]| |]; [|done..].
      injection H as <- _. by rewrite log_set_ops, decide_False.
    + by apply scan_inherited_done in H as [= -> _].
  - destruct (read_ops (roomsOperations st) room); [| |done].
    + destruct (redo_loop _ _ _ _ _ _) as [[? ?]| |]; [|done..].
      injection H as <- _. by rewrite log_set_ops, decide_False.
    + by apply scan_inherited_done in H as [= -> _].
Qed.

(** Room isolation: a request changes the log of a room only if it is a
    draw, undo, redo or clear request of a session joined to that room. *)
Theorem room_isolation st sid rq st' out r :
  handle sid rq st = Done (st', out) →
  ¬ joined st sid r ∨ ¬ drawing_request rq →
  log st' r = log st r.
Proof.
  intros H [Hnot|Hnot].
  - by eapply other_rooms_unchanged.
  - by eapply handle_other_log.
Qed.

(** Without a current room the drawing and cursor handlers return at
    their first line. *)
Lemma no_room_ignored st sid rq :
  ¬ (∃ room, joined st sid room) →
  drawing_request rq ∨ (∃ pos, rq = Cursor pos) →
  handle sid rq st = Done (st, []).
Proof.
  intros Hnot Hrq. unfold handle.
  destruct (not_joined_cases _ _ Hnot) as [->|(cur & -> & Ht)].
  - destruct Hrq as [Hrq|[pos ->]]; [|done]. by destruct rq.
  - destruct Hrq as [Hrq|[pos ->]].
    + destruct rq; try done;
        unfold on_draw, on_clear, on_undo, on_redo;
        (destruct cur as [room|]; [|done]); by rewrite Ht.
    + unfold on_cursor. destruct cur as [room|]; [|done]. by rewrite Ht.
Qed.

(** Requests out of context: draw, undo, redo, clear and cursor requests of
    a session that has no current room (it never joined, or it joined the
    room with the empty name) change nothing and emit nothing, whatever
    their payload and however many of them are sent. *)
Theorem requests_without_room_ignored st sid (reqs : list request) :
  ¬ (∃ room, joined st sid room) →
  Forall (λ rq, drawing_request rq ∨ ∃ pos, rq = Cursor pos) reqs →
  run (pair sid <$> reqs) st = Done (st, []).
Proof.
  intros Hnot Hall. induction Hall as [|rq reqs Hrq _ IH]; [done|].
  rewrite fmap_cons. cbn [run].
  by rewrite (no_room_ignored _ _ _ Hnot Hrq), IH.
Qed.

(** When a handler throws.  In a state reached from start-up by requests
    whose join payloads are strings, for a request whose join payload, if
    any, is a string: the handler throws exactly when the session is
    joined to a room and either sends a cursor message whose payload is
    [undefined] or [null], or the name of the room is defined by
    [Object.prototype] and the request is a clear, a draw that passes the
    guard, or an undo or redo where the inherited value is a function of
    at least one parameter. *)
Theorem handler_throws_exactly_when st sid rq :
  reached_with_string_rooms st → string_payload rq →
  (handle sid rq st = Throws ↔
   ∃ room, joined st sid room ∧
     ((∃ pos, rq = Cursor pos ∧ (pos = JUndefined ∨ pos = JNull)) ∨
      (∃ v, object_prototype room = Some v ∧
         (rq = Clear ∨
          (∃ ev, rq = Draw ev ∧ valid_segment ev = true) ∨
          ((rq = Undo ∨ rq = Redo) ∧ ∃ n, v = IFunction (S n)))))).
Proof.
  intros Hreach%reached_reachable Hstr.
  pose proof (reachable_wf _ Hreach) as Hwf. split.
  - intros Hthrows. unfold handle in Hthrows.
    destruct (currentRoom st !! sid) as [cur|] eqn:Hcur; [|by destruct rq].
    destruct rq as [uname col|v|ev| | | |pos|].
    + discriminate.
    + destruct (Hstr v eq_refl) as [room' ->].
      destruct (join_returns _ _ _ room' Hwf Hcur) as (? & ? & ?). congruence.
    + unfold on_draw in Hthrows. destruct cur as [room|]; [|done].
      destruct (room_truthy (Some room)) eqn:Ht; [|done].
      destruct (valid_segment ev) eqn:Hv; [|done].
      exists room. split; [by apply joined_of_truthy|]. right.
      destruct (object_prototype room) as [v|] eqn:Hp.
      * exists v. split; [done|]. right. left. by exists ev.
      * destruct (wf_own_log _ _ _ Hwf Hcur Hp) as (ops & _ & Hread).
        by rewrite Hread in Hthrows.
    + unfold on_clear in Hthrows. destruct cur as [room|]; [|done].
      destruct (room_truthy (Some room)) eqn:Ht; [|done].
      exists room. split; [by apply joined_of_truthy|]. right.
      destruct (object_prototype room) as [v|] eqn:Hp.
      * exists v. split; [done|]. by left.
      * destruct (wf_own_log _ _ _ Hwf Hcur Hp) as (ops & _ & Hread).
        rewrite Hread in Hthrows. by destruct (clear_loop _ _ _).
    + unfold on_undo in Hthrows. destruct cur as [room|]; [|done].
      destruct (room_truthy (Some room)) eqn:Ht; [|done].
      exists room. split; [by apply joined_of_truthy|]. right.
      destruct (object_prototype room) as [v|] eqn:Hp.
      * exists v. split; [done|]. right. right. split; [by left|].
        destruct (reachable_inherited _ _ _ Hreach Hp) as [_ Hread].
        rewrite Hread in Hthrows.
        destruct v as [[|n]|]; try discriminate. by exists n.
      * destruct (wf_own_log _ _ _ Hwf Hcur Hp) as (ops & _ & Hread).
        rewrite Hread in Hthrows.
        destruct (undo_loop_spec sid room (sio_members room (sio_rooms st))
                    ops (length ops)) as [(? & ? & _ & _ & _ & _ & Heq)|[_ Heq]];
          [lia| |]; by rewrite Heq in Hthrows.
    + unfold on_redo in Hthrows. destruct cur as [room|]; [|done].
      destruct (room_truthy (Some room)) eqn:Ht; [|done].
      exists room. split; [by apply joined_of_truthy|]. right.
      destruct (object_prototype room) as [v|] eqn:Hp.
      * exists v. split; [done|]. right. right. split; [by right|].
        destruct (reachable_inherited _ _ _ Hreach Hp) as [_ Hread].
        rewrite Hread in Hthrows.
        destruct v as [[|n]|]; try discriminate. by exists n.
      * destruct (wf_own_log _ _ _ Hwf Hcur Hp) as (ops & _ & Hread).
        rewrite Hread in Hthrows.
        destruct (redo_loop_spec sid room (sio_members room (sio_rooms st))
                    ops (length ops) 0)
          as [(? & ? & _ & _ & _ & _ & Heq)|[_ Heq]];
          [lia| |]; by rewrite Heq in Hthrows.
    + unfold on_cursor in Hthrows. destruct cur as [room|]; [|done].
      destruct (room_truthy (Some room)) eqn:Ht; [|done].
      exists room. split; [by apply joined_of_truthy|]. left.
      exists pos. split; [done|].
      destruct pos; simpl in Hthrows; try discriminate; auto.
    + unfold on_disconnect in Hthrows. destruct cur as [room|]; [|done].
      by destruct (room_truthy (Some room)).
  - intros (room & Hj & Hcase).
    pose proof (joined_truthy _ _ _ Hj) as Ht. pose proof Hj as [Hcur _].
    destruct Hcase as [(pos & -> & Hpos)|(v & Hp & Hcase)].
    + unfold handle, on_cursor. rewrite Hcur, Ht.
      by destruct Hpos as [-> | ->].
    + destruct (joined_inherited _ _ _ _ Hreach Hj Hp) as (_ & Hread & _ & _).
      destruct Hcase as [->|[(ev & -> & Hv)|[[-> | ->] [n ->]]]];
        unfold handle, on_clear, on_draw, on_undo, on_redo;
        by rewrite Hcur, Ht, ?Hv, Hread.
Qed.

(** A member of a Socket.IO room is connected, and the room is its current
    room, the room with the empty name, or the room named by its own
    id. *)
Lemma member_tracked_step st sid rq st' out :
  (∀ c r, c ∈ sio_members r (sio_rooms st) →
          currentRoom st !! c = Some (Some r) ∨
          ((r = EmptyString ∨ r = c) ∧ is_Some (currentRoom st !! c))) →
  handle sid rq st = Done (st', out) →
  ∀ c r, c ∈ sio_members r (sio_rooms st') →
         currentRoom st' !! c = Some (Some r) ∨
         ((r = EmptyString ∨ r = c) ∧ is_Some (currentRoom st' !! c)).
Proof.
  intros Hinv H.
  assert (drawing_request rq ∨ ¬ drawing_request rq) as [Hd|Hd]
    by (destruct rq; simpl; tauto).
  { destruct (handle_drawing_rest _ _ _ _ _ Hd H) as (_ & -> & -> & _).
    exact Hinv. }
  destruct rq as [uname col|v| | | | |pos|]; simpl in Hd; try tauto.
  - (* connection *)
    unfold handle in H.
    destruct (currentRoom st !! sid) as [cur|] eqn:Hcur;
      [injection H as <- _; exact Hinv|].
    injection H as <- _. simpl. intros c r.
    rewrite sio_members_join, lookup_insert.
    destruct (decide (sid = c)) as [<-|Hne].
    + destruct (decide (sid = r)) as [<-|Hr].
      * intros _. right. split; [by right|by eauto].
      * intros Hin. destruct (Hinv sid r Hin) as [Hc|[_ [? Hc]]]; congruence.
    + intros Hin. apply Hinv.
      destruct (decide (sid = r)); [set_solver|done].
  - (* join *)
    apply handle_join_inv in H
      as [(_ & -> & _)|(cur & room & Hcur & _ & H)]; [exact Hinv|].
    unfold on_join in H. destruct (users st !! sid); [|done].
    injection H as <- _. simpl. intros c r.
    rewrite sio_members_join, lookup_insert.
    set (ad1 := match cur with
                | Some old => if room_truthy cur
                              then sio_leave sid old (sio_rooms st)
                              else sio_rooms st
                | None => sio_rooms st
                end).
    assert (c ∈ sio_members r ad1 →
            c ∈ sio_members r (sio_rooms st) ∧
            (c = sid → r = EmptyString ∨ r = sid)) as Had1.
    { unfold ad1. destruct cur as [old|].
      - destruct (room_truthy (Some old)) eqn:Ht.
        + rewrite sio_members_leave.
          destruct (decide (old = r)) as [<-|Hne].
          * intros Hin. split; [set_solver|]. intros ->. set_solver.
          * intros Hin. split; [done|]. intros ->.
            destruct (Hinv sid r Hin) as [Hc|[Hr _]]; [congruence|done].
        + intros Hin. split; [done|]. intros ->.
          destruct (Hinv sid r Hin) as [Hc|[Hr _]]; [|done].
          assert (old = r) as -> by congruence.
          simpl in Ht. apply negb_false_iff, String.eqb_eq in Ht. by left.
      - intros Hin. split; [done|]. intros ->.
        destruct (Hinv sid r Hin) as [Hc|[Hr _]]; [congruence|done]. }
    destruct (decide (sid = c)) as [<-|Hne].
    + destruct (decide (room = r)) as [<-|Hr]; [by left|].
      intros Hin. right. split; [|by eauto].
      by apply (proj2 (Had1 Hin)).
    + intros Hin.
      assert (c ∈ sio_members r ad1) as Hin1.
      { destruct (decide (room = r)); [set_solver|done]. }
      apply Had1 in Hin1 as [Hin1 _]. by apply Hinv.
  - (* cursor *)
    unfold handle in H.
    destruct (currentRoom st !! sid) as [cur|] eqn:Hcur;
      [|injection H as <- _; exact Hinv].
    rewrite (on_cursor_state _ _ _ _ _ _ H). exact Hinv.
  - (* disconnect *)
    unfold handle in H.
    destruct (currentRoom st !! sid) as [cur|] eqn:Hcur;
      [|injection H as <- _; exact Hinv].
    assert (currentRoom st' = delete sid (currentRoom st) ∧
            sio_rooms st' = sio_leave_all sid (sio_rooms st)) as [-> ->].
    { unfold on_disconnect in H. destruct cur as [room|];
        [destruct (room_truthy (Some room))|]; by injection H as <- _. }
    intros c r. rewrite sio_members_leave_all, lookup_delete.
    intros Hin. destruct (decide (sid = c)) as [<-|]; [set_solver|].
    apply Hinv. set_solver.
Qed.

Lemma member_tracked st c r :
  reachable st → c ∈ sio_members r (sio_rooms st) →
  currentRoom st !! c = Some (Some r) ∨
  ((r = EmptyString ∨ r = c) ∧ is_Some (currentRoom st !! c)).
Proof.
  intros Hreach. revert c r.
  induction Hreach as [|st sid rq st' out _ IH Hstep].
  - intros c r. unfold sio_members. simpl. rewrite lookup_empty. set_solver.
  - by eapply member_tracked_step.
Qed.

(** Rooms with a name: in every state reached from start-up by requests
    whose join payloads are strings, a Socket.IO room a session is a
    member of, other than the room with the empty name and the room
    Socket.IO keeps under the session's own id, is the session's current
    room, and the session is in no further such room. *)
Theorem one_named_room st sid r :
  reached_with_string_rooms st → sid ∈ sio_members r (sio_rooms st) →
  r ≠ EmptyString → r ≠ sid →
  joined st sid r ∧
  ∀ r', r' ≠ r → r' ≠ EmptyString → r' ≠ sid →
        sid ∉ sio_members r' (sio_rooms st).
Proof.
  intros Hreach%reached_reachable Hin Hn Hs.
  destruct (member_tracked _ _ _ Hreach Hin) as [Hc|[[?|?] _]]; [|done..].
  split; [by split|]. intros r' Hr' Hn' Hs' Hin'.
  destruct (member_tracked _ _ _ Hreach Hin') as [Hc'|[[?|?] _]]; [|done..].
  congruence.
Qed.

(** Disconnect: the handler returns; the logs are untouched; the session
    has no [currentRoom], no [users] entry and is in no Socket.IO room
    afterwards; if it was joined to a room, the cursor removal is broadcast
    to the members that remain, followed by the user list of the room
    store without the session, still read with the session's [users]
    entry in place. *)
Theorem disconnect_effects st sid :
  reachable st → is_Some (currentRoom st !! sid) →
  ∃ st' out,
    handle sid Disconnect st = Done (st', out) ∧
    roomsOperations st' = roomsOperations st ∧
    currentRoom st' !! sid = None ∧ users st' !! sid = None ∧
    (∀ r, sid ∉ sio_members r (sio_rooms st')) ∧
    (∀ room, joined st sid room →
       out = [ToRoom room (sio_members room (sio_rooms st) ∖ {[sid]})
                     (RemoveCursor sid);
              ToRoom room (sio_members room (sio_rooms st) ∖ {[sid]})
                     (UserList (entry_of (users st) <$>
                                listClients room
                                  (removeClient room sid (roomStore st))))]) ∧
    ((¬ ∃ room, joined st sid room) → out = []).
Proof.
  intros _ [cur Hcur]. unfold handle. rewrite Hcur. unfold on_disconnect.
  destruct cur as [room|]; [destruct (room_truthy (Some room)) eqn:Ht|];
    eexists _, _; (split; [reflexivity|]); simpl;
    rewrite !lookup_delete_eq; (split; [done|]); (split; [done|]);
    (split; [done|]);
    (split; [intros r; rewrite sio_members_leave_all; set_solver|]).
  - split.
    + intros room' [Hc _]. assert (room' = room) as -> by congruence.
      unfold broadcastUserList. simpl. by rewrite sio_members_leave_all.
    + intros Hnot. exfalso. apply Hnot. exists room.
      split; [done|by apply room_truthy_Some].
  - split; [|done]. intros room' [Hc Hne].
    assert (room' = room) as -> by congruence.
    apply room_truthy_Some in Hne. congruence.
  - split; [|done]. intros room' [Hc _]. congruence.
Qed.

(** Joining the current room again changes neither the logs, nor any
    [currentRoom], nor the membership of any Socket.IO room, nor [users];
    what [roomsOperations] holds under the name is sent again: the room's
    log, when [Object.prototype] does not define the name. *)
Theorem rejoin_same_room st sid room :
  reachable st → currentRoom st !! sid = Some (Some room) →
  ∃ st' rest,
    handle sid (JoinRoom (JStr room)) st =
      Done (st', ToSocket sid (CanvasHistory
                                 (read_ops (roomsOperations st) room)) :: rest) ∧
    (object_prototype room = None →
     read_ops (roomsOperations st) room = OpsArray (log st room)) ∧
    roomsOperations st' = roomsOperations st ∧
    currentRoom st' = currentRoom st ∧
    sio_rooms st' = sio_rooms st ∧
    users st' = users st.
Proof.
  intros Hreach Hcur. pose proof (reachable_wf _ Hreach) as Hwf.
  destruct (wf_users _ Hwf sid) as [u Hu]; [by eauto|].
  pose proof (wf_log _ Hwf _ _ Hcur) as Hdef.
  pose proof (wf_member _ Hwf _ _ Hcur) as Hin.
  unfold sio_members in Hin.
  destruct (sio_rooms st !! room) as [s|] eqn:Hs; [|set_solver].
  simpl in Hin.
  assert (match read_ops (roomsOperations st) room with
          | OpsUndefined => <[room := []]> (roomsOperations st)
          | _ => roomsOperations st
          end = roomsOperations st) as Hro.
  { by destruct (read_ops (roomsOperations st) room). }
  unfold handle, on_join. rewrite Hcur, Hu, Hro. eexists _, _.
  split; [reflexivity|].
  split.
  { intros Hp.
    destruct (wf_own_log _ _ _ Hwf Hcur Hp) as (ops & Hops & ->).
    by rewrite (log_lookup _ _ _ Hops). }
  cbn [roomsOperations currentRoom sio_rooms users].
  split; [done|]. split; [by apply insert_id|]. split; [|done].
  destruct (room_truthy (Some room)).
  - unfold sio_leave. rewrite Hs. unfold sio_join, sio_members.
    rewrite lookup_insert_eq, insert_insert_eq. simpl.
    rewrite <- union_difference_singleton_L by done. by apply insert_id.
  - unfold sio_join, sio_members. rewrite Hs. simpl.
    rewrite subseteq_union_1_L by set_solver. by apply insert_id.
Qed.

End Rooms.

(** ** The client's copy follows the server's log *)

Section Replica.
Context `{RS : RoomStore}.
Implicit Types (st : server) (sid room r c : string) (l : list Op.t).

Lemma gapless_lookup l i o : gapless l → l !! i = Some o → Op.opId o = i.
Proof.
  unfold gapless. intros Hg Hi.
  assert ((Op.opId <$> l) !! i = Some (Op.opId o)) as Hf
    by (by rewrite list_lookup_fmap, Hi).
  rewrite Hg in Hf. apply lookup_seq in Hf as [-> _]. done.
Qed.

(** In a gapless log the operation found by id is the one at that index. *)
Lemma set_found_alter b n l :
  gapless l → Client.set_found b n l = alter (Op.set_active b) n l.
Proof.
  intros Hg. unfold Client.set_found.
  destruct (l !! n) as [o|] eqn:Hn.
  - assert (list_find (λ o', Op.opId o' = n) l = Some (n, o)) as ->.
    { apply list_find_Some. split; [done|]. split.
      - by eapply gapless_lookup.
      - intros j y Hj Hlt Hy. rewrite (gapless_lookup _ _ _ Hg Hj) in Hy. lia. }
    apply list_eq. intros j. destruct (decide (n = j)) as [<-|Hne].
    + rewrite list_lookup_alter_eq, Hn.
      by rewrite list_lookup_insert_eq by (by eapply lookup_lt_Some).
    + by rewrite list_lookup_alter_ne, list_lookup_insert_ne.
  - assert (list_find (λ o', Op.opId o' = n) l = None) as ->.
    { apply list_find_None, Forall_forall. intros y Hy Hid.
      apply list_elem_of_lookup in Hy as [j Hj].
      rewrite (gapless_lookup _ _ _ Hg Hj) in Hid. congruence. }
    apply list_eq. intros j. destruct (decide (n = j)) as [<-|Hne].
    + by rewrite list_lookup_alter_eq, Hn.
    + by rewrite list_lookup_alter_ne.
Qed.

Lemma gapless_alter b n l : gapless l → gapless (alter (Op.set_active b) n l).
Proof.
  unfold gapless. intros Hg. rewrite length_alter, <- Hg.
  apply list_eq. intros j. rewrite !list_lookup_fmap.
  destruct (decide (n = j)) as [<-|Hne].
  - rewrite list_lookup_alter_eq. by destruct (l !! n).
  - by rewrite list_lookup_alter_ne.
Qed.

Lemma set_found_at b l i o :
  gapless l → l !! i = Some o →
  Client.set_found b (Op.opId o) l = <[i := Op.set_active b o]> l.
Proof.
  intros Hg Hi. rewrite (gapless_lookup _ _ _ Hg Hi), set_found_alter by done.
  apply list_eq. intros j. destruct (decide (i = j)) as [<-|Hne].
  - rewrite list_lookup_alter_eq, Hi.
    by rewrite list_lookup_insert_eq by (by eapply lookup_lt_Some).
  - by rewrite list_lookup_alter_ne, list_lookup_insert_ne.
Qed.

Lemma clear_fold_lookup ids l j :
  gapless l →
  Client.handleClearUserStrokes ids l !! j =
    (if decide (j ∈ ids) then Op.set_active false else id) <$> l !! j.
Proof.
  unfold Client.handleClearUserStrokes. revert l.
  induction ids as [|n ids IH]; intros l Hg; cbn [foldl].
  - destruct (decide (j ∈ [])) as [Hin|_]; [by apply elem_of_nil in Hin|].
    by destruct (l !! j).
  - rewrite set_found_alter by done.
    rewrite IH by (by apply gapless_alter).
    destruct (decide (n = j)) as [<-|Hne].
    + rewrite list_lookup_alter_eq.
      destruct (decide (n ∈ n :: ids)) as [_|Hnin]; [|set_solver].
      destruct (l !! n) as [o|]; [|done]. simpl.
      destruct (decide (n ∈ ids)); [|done]. by destruct o.
    + rewrite list_lookup_alter_ne by done.
      destruct (decide (j ∈ ids)) as [Hin|Hnin];
        destruct (decide (j ∈ n :: ids)) as [Hin'|Hnin'];
        try done; set_solver.
Qed.

(** Replaying the list a clear broadcast carries gives the log the clear
    left on the server. *)
Lemma clear_replay sid l :
  gapless l →
  Client.handleClearUserStrokes
    (Op.opId <$> filter (λ o, mine_active sid o = true) l) l =
  deactivate_mine sid <$> l.
Proof.
  intros Hg. apply list_eq. intros j.
  rewrite clear_fold_lookup, list_lookup_fmap by done.
  destruct (l !! j) as [o|] eqn:Hj; [|done]. simpl. f_equal.
  unfold deactivate_mine. destruct (mine_active sid o) eqn:Hm.
  - rewrite decide_True; [done|]. apply list_elem_of_fmap. exists o.
    split; [by rewrite (gapless_lookup _ _ _ Hg Hj)|].
    apply list_elem_of_filter. split; [done|]. by eapply list_elem_of_lookup_2.
  - rewrite decide_False; [done|]. intros Hin.
    apply list_elem_of_fmap in Hin as (o' & Hid & Ho').
    apply list_elem_of_filter in Ho' as [Hm' Ho'].
    apply list_elem_of_lookup in Ho' as [j' Hj'].
    rewrite (gapless_lookup _ _ _ Hg Hj') in Hid. subst j'. congruence.
Qed.

Lemma joined_or_not st sid :
  (∃ room, joined st sid room) ∨ ¬ (∃ room, joined st sid room).
Proof.
  destruct (currentRoom st !! sid) as [[room|]|] eqn:Hcur.
  - destruct (decide (room = EmptyString)) as [->|Hne].
    + right. intros (r & Hc & Hr). congruence.
    + left. by exists room.
  - right. intros (r & Hc & _). congruence.
  - right. intros (r & Hc & _). congruence.
Qed.

(** What a drawing request emits is what a client needs: either nothing,
    with every log unchanged, or one broadcast to the session's room whose
    replay on the old log gives the new one. *)
Lemma drawing_emits st sid rq st' out :
  reachable st → drawing_request rq → handle sid rq st = Done (st', out) →
  (out = [] ∧ ∀ r, log st' r = log st r) ∨
  (∃ r0 m, joined st sid r0 ∧
           out = [ToRoom r0 (sio_members r0 (sio_rooms st)) m] ∧
           Client.receive m (log st r0) = log st' r0).
Proof.
  intros Hreach Hrq H. pose proof (reachable_wf _ Hreach) as Hwf.
  destruct (joined_or_not st sid) as [[r0 Hj]|Hnot].
  2:{ rewrite no_room_ignored in H by auto.
      injection H as <- <-. by left. }
  destruct (object_prototype r0) as [v|] eqn:Hp.
  { (* an inherited name: only an undo or redo that finds nothing returns *)
    left.
    destruct (joined_inherited _ _ _ _ Hreach Hj Hp) as (_ & Hread & Hc & Ht).
    unfold handle in H. rewrite Hc in H.
    destruct rq; simpl in Hrq; try done;
      unfold on_draw, on_clear, on_undo, on_redo in H;
      rewrite Ht, ?Hread in H.
    - destruct (valid_segment ev); [done|]. by injection H as <- <-.
    - done.
    - by apply scan_inherited_done in H as [= -> ->].
    - by apply scan_inherited_done in H as [= -> ->]. }
  destruct (wf_own_log _ _ _ Hwf (proj1 Hj) Hp) as (ops & Hops & _).
  pose proof (wf_ids _ Hwf _ _ Hops) as Hg.
  pose proof (log_lookup _ _ _ Hops) as Hlog.
  destruct rq; simpl in Hrq; try done.
  - rewrite (draw_result _ _ _ _ ev Hj Hops) in H.
    destruct (valid_segment ev) eqn:Hv; injection H as <- <-; [|by left].
    right. eexists r0, _. split; [done|]. split; [done|].
    rewrite log_set_ops, decide_True, Hlog by done. simpl.
    unfold Client.applyRemote. simpl.
    unfold valid_segment in Hv. rewrite !andb_true_iff in Hv.
    destruct Hv as [[_ Hx] _]. by destruct (field ev "x").
  - rewrite (clear_result _ _ _ _ Hj Hops) in H. injection H as <- <-.
    right. eexists r0, _. split; [done|]. split; [done|].
    rewrite log_set_ops, decide_True, Hlog by done. simpl. by apply clear_replay.
  - destruct (undo_result _ _ _ _ Hj Hops)
      as [(i & o & Hi & _ & _ & Heq)|[_ Heq]];
      rewrite Heq in H; injection H as <- <-; [|by left].
    right. eexists r0, _. split; [done|]. split; [done|].
    rewrite log_set_ops, decide_True, Hlog by done. simpl.
    by apply set_found_at.
  - destruct (redo_result _ _ _ _ Hj Hops)
      as [(i & o & Hi & _ & _ & Heq)|[_ Heq]];
      rewrite Heq in H; injection H as <- <-; [|by left].
    right. eexists r0, _. split; [done|]. split; [done|].
    rewrite log_set_ops, decide_True, Hlog by done. simpl.
    by apply set_found_at.
Qed.

Lemma sync_page_only c e l :
  (∀ m, Client.delivered c e = Some m → Client.receive m l = l) →
  Client.sync c [e] l = l.
Proof.
  intros H. unfold Client.sync. simpl.
  destruct (Client.delivered c e) as [m|] eqn:Hd; [by apply H|done].
Qed.

(** The private room of [c] stays unused as long as no join names it. *)
Lemma private_room_unused_step st c sid rq st' out :
  private_room_unused st c → not_join_of c rq →
  handle sid rq st = Done (st', out) → private_room_unused st' c.
Proof.
  intros Hun Hrq H.
  assert (drawing_request rq ∨ ¬ drawing_request rq) as [Hd|Hd]
    by (destruct rq; simpl; tauto).
  { destruct (handle_drawing_rest _ _ _ _ _ Hd H) as (_ & Hcr & _).
    intros sid'. rewrite Hcr. apply Hun. }
  destruct rq as [uname col|v| | | | |pos|]; simpl in Hd; try tauto.
  - unfold handle in H. destruct (currentRoom st !! sid) eqn:Hcur;
      injection H as <- _; [done|].
    intros sid'. simpl. rewrite lookup_insert.
    destruct (decide (sid = sid')); [done|apply Hun].
  - apply handle_join_inv in H
      as [(_ & -> & _)|(cur & room & Hcur & -> & H)]; [done|].
    unfold on_join in H. destruct (users st !! sid); [|done].
    injection H as <- _. intros sid'. simpl. rewrite lookup_insert.
    destruct (decide (sid = sid')); [|apply Hun].
    intros [= ->]. by apply Hrq.
  - unfold handle in H. destruct (currentRoom st !! sid) eqn:Hcur;
      [|by injection H as <- _].
    by rewrite (on_cursor_state _ _ _ _ _ _ H).
  - unfold handle in H. destruct (currentRoom st !! sid) as [cur|] eqn:Hcur;
      [|by injection H as <- _].
    assert (currentRoom st' = delete sid (currentRoom st)) as Hc'.
    { unfold on_disconnect in H. destruct cur as [room|];
        [destruct (room_truthy (Some room))|]; by injection H as <- _. }
    intros sid'. rewrite Hc', lookup_delete.
    destruct (decide (sid = sid')); [done|apply Hun].
Qed.

Lemma replica_step st c l sid rq st' out :
  reachable st → replica_ok st c l → private_room_unused st c →
  handle sid rq st = Done (st', out) →
  replica_ok st' c (Client.sync c out l).
Proof.
  intros Hreach Hok Hun H. pose proof (reachable_wf _ Hreach) as Hwf.
  assert (drawing_request rq ∨ ¬ drawing_request rq) as [Hd|Hd]
    by (destruct rq; simpl; tauto).
  { destruct (handle_drawing_rest _ _ _ _ _ Hd H) as (_ & Hcr & _).
    intros r Hc Hp. rewrite Hcr in Hc. specialize (Hok r Hc Hp).
    destruct (drawing_emits _ _ _ _ _ Hreach Hd H)
      as [[-> Hsame]|(r0 & m & Hj & -> & Hrecv)].
    - simpl. by rewrite Hsame.
    - unfold Client.sync. simpl.
      destruct (decide (c ∈ sio_members r0 (sio_rooms st))) as [Hin|Hnin].
      + destruct (member_tracked _ _ _ Hreach Hin) as [Hc0|[[Hr0|Hr0] _]].
        * assert (r0 = r) as -> by congruence. by rewrite Hok.
        * destruct Hj as [_ Hne]. done.
        * destruct Hj as [Hs0 _]. subst r0. by apply Hun in Hs0.
      + rewrite Hok. symmetry. eapply other_rooms_unchanged; [done|].
        intros [Hs _]. destruct Hj as [Hs0 _].
        assert (r = r0) as -> by congruence.
        apply Hnin. by apply (wf_member _ Hwf). }
  destruct rq as [uname col|v| | | | |pos|]; simpl in Hd; try tauto.
  - (* connection *)
    unfold handle in H. destruct (currentRoom st !! sid) as [cur|] eqn:Hcur;
      injection H as <- <-; [exact Hok|].
    intros r. simpl. rewrite lookup_insert.
    destruct (decide (sid = c)) as [<-|]; [done|]. apply Hok.
  - (* join *)
    apply handle_join_inv in H
      as [(_ & -> & ->)|(cur & room & Hcur & _ & H)]; [exact Hok|].
    pose proof (λ r, on_join_log _ _ _ _ _ _ r H) as Hlog.
    unfold on_join in H. destruct (users st !! sid) as [u|]; [|done].
    injection H as <- <-. intros r.
    cbn [currentRoom]. rewrite lookup_insert.
    unfold Client.sync. cbn [foldl Client.delivered].
    destruct (decide (sid = c)) as [<-|Hne].
    + intros [= <-] Hp. unfold broadcastUserList.
      cbn [roomsOperations].
      assert (∃ ops,
                read_ops
                  match read_ops (roomsOperations st) room with
                  | OpsUndefined => <[room := []]> (roomsOperations st)
                  | _ => roomsOperations st
                  end room = OpsArray ops ∧
                log {| roomsOperations :=
                         match read_ops (roomsOperations st) room with
                         | OpsUndefined => <[room := []]> (roomsOperations st)
                         | _ => roomsOperations st
                         end;
                       users := users st;
                       currentRoom := <[sid := Some room]> (currentRoom st);
                       sio_rooms :=
                         sio_join sid room
                           match cur with
                           | Some old => if room_truthy cur
                                         then sio_leave sid old (sio_rooms st)
                                         else sio_rooms st
                           | None => sio_rooms st
                           end;
                       roomStore := addClient room sid (roomStore st) |} room
                  = ops) as (ops & -> & <-).
      { unfold log. cbn [roomsOperations].
        destruct (read_ops (roomsOperations st) room) as [ops|v0|] eqn:Hread.
        - exists ops. split; [done|].
          apply read_ops_array in Hread. by rewrite Hread.
        - apply read_ops_inherited in Hread as [_ ?]. congruence.
        - exists []. rewrite (read_ops_lookup _ _ [] (lookup_insert_eq _ _ _)).
          split; [done|]. by rewrite lookup_insert_eq. }
      cbn [Client.delivered Client.receive Client.setFromServerHistory].
      by destruct (decide (sid ∈ _)).
    + intros Hc Hp. unfold broadcastUserList.
      cbn [Client.delivered Client.receive].
      destruct (decide (c ∈ _)); cbn [Client.receive];
        rewrite Hlog; by apply Hok.
  - (* cursor *)
    unfold handle in H. destruct (currentRoom st !! sid) as [cur|] eqn:Hcur;
      [|injection H as <- <-; exact Hok].
    assert (st' = st ∧ Client.sync c out l = l) as [-> ->]; [|done].
    unfold on_cursor in H.
    destruct cur as [room|]; [|by simplify_eq].
    destruct (room_truthy (Some room)); [|by simplify_eq].
    destruct (getProp pos "x"), (getProp pos "y"), (getProp pos "color");
      try done.
    simplify_eq. split; [done|]. apply sync_page_only. intros m. simpl.
    destruct (decide (c ∈ _)); [|done]. by intros [= <-].
  - (* disconnect *)
    unfold handle in H. destruct (currentRoom st !! sid) as [cur|] eqn:Hcur;
      [|injection H as <- <-; exact Hok].
    assert (roomsOperations st' = roomsOperations st ∧
            currentRoom st' = delete sid (currentRoom st) ∧
            Client.sync c out l = l) as (Ho & Hc' & ->).
    { unfold on_disconnect in H. destruct cur as [room|];
        [destruct (room_truthy (Some room))|];
        injection H as <- <-; (split; [done|]); (split; [done|]); try done.
      unfold Client.sync, broadcastUserList. simpl.
      by repeat destruct (decide _). }
    intros r. rewrite Hc', lookup_delete.
    destruct (decide (sid = c)); [done|]. intros Hc Hp.
    unfold log. rewrite Ho. by apply Hok.
Qed.

(** A client whose copy agrees with the server keeps agreeing along any
    run of the server in which no session joins the room named by the
    client's socket id. *)
Lemma replica_run st c l evs st' out :
  reachable st → replica_ok st c l → private_room_unused st c →
  Forall (λ e, not_join_of c e.2) evs →
  run evs st = Done (st', out) →
  replica_ok st' c (Client.sync c out l).
Proof.
  intros Hreach Hok Hun Hall. revert st l out Hreach Hok Hun.
  induction Hall as [|[sid rq] evs Hrq _ IH]; intros st l out Hreach Hok Hun.
  - by intros [= <- <-].
  - intros Hrun.
    apply run_cons_inv in Hrun as (st1 & out1 & out2 & Hstep & Hrun & ->).
    unfold Client.sync. rewrite foldl_app.
    apply (IH st1); [by eapply reach_step| | |done].
    + by eapply replica_step.
    + by eapply private_room_unused_step.
Qed.

(** Replica consistency: a client whose copy agrees with the server keeps
    agreeing, whatever requests the server handles from whichever sessions,
    when it applies the messages the server emits to it, in order,
    provided every join payload is a string and no session joins the room
    named by the client's socket id.  In particular, when the client has
    a current room at the end, with a name [Object.prototype] does not
    define, its copy is exactly that room's log. *)
Theorem client_copy_follows_log st c l evs st' out :
  reached_with_string_rooms st → replica_ok st c l →
  private_room_unused st c →
  Forall (λ e, string_payload e.2 ∧ not_join_of c e.2) evs →
  run evs st = Done (st', out) →
  ∀ r, currentRoom st' !! c = Some (Some r) → object_prototype r = None →
       Client.sync c out l = log st' r.
Proof.
  intros Hreach%reached_reachable Hok Hun Hall Hrun r Hc Hp.
  exact (replica_run _ _ _ _ _ _ Hreach Hok Hun
           (Forall_impl _ _ _ Hall (λ _ H, proj2 H)) Hrun r Hc Hp).
Qed.

(** Late joiners converge: after any run of the server from start-up in
    which every join payload is a string and no session joins the room
    named by the socket id of either client, two clients that started
    with an empty copy and are in the same room, with a name
    [Object.prototype] does not define, hold the same copy, the room's
    log; so they draw the same operations in the same order, however late
    either of them joined. *)
Theorem clients_in_a_room_agree evs st out c1 c2 room :
  run evs initial = Done (st, out) →
  Forall (λ e, string_payload e.2 ∧
               not_join_of c1 e.2 ∧ not_join_of c2 e.2) evs →
  object_prototype room = None →
  currentRoom st !! c1 = Some (Some room) →
  currentRoom st !! c2 = Some (Some room) →
  Client.sync c1 out [] = log st room ∧
  Client.sync c2 out [] = log st room ∧
  visible (Client.sync c1 out []) = visible (Client.sync c2 out []).
Proof.
  intros Hrun Hall Hp H1 H2.
  assert (∀ c, Forall (λ e, not_join_of c e.2) evs →
               replica_ok st c (Client.sync c out [])) as Hok.
  { intros c Hc. eapply replica_run; [| | |exact Hc|exact Hrun].
    - constructor.
    - intros r. simpl. by rewrite lookup_empty.
    - intros sid. simpl. by rewrite lookup_empty. }
  rewrite (Hok c1 (Forall_impl _ _ _ Hall (λ _ H, proj1 (proj2 H))) room H1 Hp),
          (Hok c2 (Forall_impl _ _ _ Hall (λ _ H, proj2 (proj2 H))) room H2 Hp).
  done.
Qed.

End Replica.

(** ** Clear followed by redo, and generated user names *)

Section ClearRedo.
Context `{RS : RoomStore}.
Implicit Types (st : server) (sid room : string).

Lemma redo_all st sid room (pre suf : list Op.t) :
  joined st sid room →
  (∀ o, o ∈ pre → mine_inactive sid o = false) →
  (∀ o, o ∈ suf → mine_inactive sid o = false) →
  run (replicate (length (filter (λ o, mine_active sid o = true) suf))
                 (sid, Redo))
      (set_ops room (pre ++ (deactivate_mine sid <$> suf)) st) =
    Done (set_ops room (pre ++ suf) st,
          (λ n, ToRoom room (sio_members room (sio_rooms st)) (RedoOp n)) <$>
            (Op.opId <$> filter (λ o, mine_active sid o = true) suf)).
Proof.
  intros Hj. revert pre. induction suf as [|o suf IH]; intros pre Hpre Hsuf.
  - done.
  - assert (∀ o', o' ∈ pre ++ [o] → mine_inactive sid o' = false) as Hpre'.
    { intros o' [Ho'|Ho']%elem_of_app; [by apply Hpre|].
      apply list_elem_of_singleton in Ho' as ->. apply Hsuf. set_solver. }
    assert (∀ o', o' ∈ suf → mine_inactive sid o' = false) as Hsuf'.
    { intros o' Ho'. apply Hsuf. set_solver. }
    specialize (IH (pre ++ [o]) Hpre' Hsuf').
    rewrite <- !app_assoc in IH. simpl in IH.
    rewrite fmap_cons, filter_cons. unfold deactivate_mine at 1.
    destruct (mine_active sid o) eqn:Hm.
    + rewrite decide_True by done. cbn [length replicate run fmap list_fmap].
      apply mine_active_true in Hm as [Hu Ha].
      set (o0 := Op.set_active false o).
      set (L := pre ++ o0 :: (deactivate_mine sid <$> suf)).
      assert (L !! length pre = Some o0) as Hmid
        by apply list_lookup_middle, eq_refl.
      assert (mine_inactive sid o0 = true) as Hm0
        by (by apply mine_inactive_true).
      destruct (redo_result (set_ops room L st) sid room L)
        as [(i & oi & Hi & Hmi & Hfirst & Hredo)|[Hnone _]].
      { exact Hj. }
      { unfold set_ops. simpl. apply lookup_insert_eq. }
      2:{ specialize (Hnone _ _ Hmid). congruence. }
      assert (i = length pre) as ->.
      { destruct (lt_eq_lt_dec i (length pre)) as [[Hlt|]|Hgt]; [|done|].
        - unfold L in Hi. rewrite lookup_app_l in Hi by done.
          apply list_elem_of_lookup_2, Hpre in Hi. congruence.
        - specialize (Hfirst _ _ Hgt Hmid). congruence. }
      assert (oi = o0) as -> by congruence.
      rewrite Hredo, set_ops_set_ops.
      assert (<[length pre := Op.set_active true o0]> L =
              pre ++ o :: (deactivate_mine sid <$> suf)) as ->.
      { unfold L. rewrite insert_app_r_alt by lia. rewrite Nat.sub_diag.
        simpl. unfold o0. by rewrite set_active_true_false. }
      by rewrite IH.
    + rewrite decide_False by congruence. exact IH.
Qed.

(** Clear, then as many redos as operations were cleared, for a user that
    had no inactive operation, in a room whose name [Object.prototype] does
    not define: the state is exactly as before the clear, and the redos
    reactivate the cleared operations one by one in ascending id order,
    the order of the list the clear broadcast. *)
Theorem clear_then_redo_all st sid room :
  reachable st → joined st sid room → object_prototype room = None →
  (∀ i o, log st room !! i = Some o → Op.userId o = sid →
          Op.active o = true) →
  ∃ ids,
    StronglySorted lt ids ∧
    (∀ n, n ∈ ids ↔ ∃ i o, log st room !! i = Some o ∧ Op.userId o = sid ∧
                           Op.opId o = n) ∧
    run ((sid, Clear) :: replicate (length ids) (sid, Redo)) st =
      Done (st,
            ToRoom room (sio_members room (sio_rooms st)) (ClearUserStrokes ids)
            :: ((λ n, ToRoom room (sio_members room (sio_rooms st)) (RedoOp n))
                  <$> ids)).
Proof.
  intros Hreach Hj Hp Hall.
  pose proof (reachable_log _ _ _ Hreach Hj Hp) as Hlog.
  set (ops := log st room) in *.
  exists (Op.opId <$> filter (λ o, mine_active sid o = true) ops).
  split; [|split].
  - apply sorted_ids_filter.
    pose proof (wf_ids _ (reachable_wf _ Hreach) _ _ Hlog) as Hg.
    unfold gapless in Hg. rewrite Hg. apply strongly_sorted_seq.
  - intros n. rewrite list_elem_of_fmap. split.
    + intros (o & -> & Ho). apply list_elem_of_filter in Ho as [Hm Ho].
      apply mine_active_true in Hm as [Hu _].
      apply list_elem_of_lookup in Ho as [i Hi]. by exists i, o.
    + intros (i & o & Hi & Hu & <-). exists o. split; [done|].
      apply list_elem_of_filter. split.
      * apply mine_active_true. split; [done|]. by eapply Hall.
      * by eapply list_elem_of_lookup_2.
  - assert (∀ o, o ∈ ops → mine_inactive sid o = false) as Hsuf.
    { intros o Ho. apply list_elem_of_lookup in Ho as [i Hi].
      apply mine_inactive_false. intros Hu. by eapply Hall. }
    assert (∀ o : Op.t, o ∈ [] → mine_inactive sid o = false) as Hpre.
    { intros o Ho. by apply elem_of_nil in Ho. }
    pose proof (redo_all st sid room [] ops Hj Hpre Hsuf) as Hredo.
    rewrite !app_nil_l in Hredo.
    cbn [run]. rewrite (clear_result _ _ _ _ Hj Hlog), length_fmap, Hredo.
    by rewrite set_ops_id.
Qed.

End ClearRedo.

Section Names.
Lemma string_length_append (s t : string) :
  String.length (String.append s t) = String.length s + String.length t.
Proof. induction s as [|a s IH]; simpl; [done|]. by rewrite IH. Qed.

Lemma list_ascii_append (s t : string) :
  String.list_ascii_of_string (String.append s t) =
  String.list_ascii_of_string s ++ String.list_ascii_of_string t.
Proof. induction s as [|a s IH]; simpl; [done|]. by rewrite IH. Qed.

Lemma charAt_in_range (s : string) (i : nat) :
  i < String.length s →
  ∃ a, charAt s i = String a EmptyString ∧ a ∈ String.list_ascii_of_string s.
Proof.
  unfold charAt. revert i. induction s as [|b s IH]; intros i Hi; simpl in *.
  - lia.
  - destruct i as [|i].
    + exists b. split; [done|]. set_solver.
    + destruct (IH i) as (a & Ha & Hin); [lia|]. exists a. split; [done|].
      set_solver.
Qed.

Lemma generateUsername_loop_shape draw (u : string) (i k : nat) :
  (∀ j, i ≤ j < i + k → draw j < 36) →
  (∀ a, a ∈ String.list_ascii_of_string u → a ∈ String.list_ascii_of_string username_chars) →
  String.length (generateUsername_loop draw u i k) = String.length u + k ∧
  ∀ a, a ∈ String.list_ascii_of_string (generateUsername_loop draw u i k) →
       a ∈ String.list_ascii_of_string username_chars.
Proof.
  revert u i. induction k as [|k IH]; intros u i Hdraw Hu; simpl.
  - split; [lia|done].
  - destruct (charAt_in_range username_chars (draw i)) as (a & Ha & Hin).
    { change (String.length username_chars) with 36. apply Hdraw. lia. }
    rewrite Ha.
    destruct (IH (String.append u (String a EmptyString)) (S i)) as [Hlen Hall].
    + intros j Hj. apply Hdraw. lia.
    + intros b. rewrite list_ascii_append. simpl.
      intros [Hb|Hb]%elem_of_app; [by apply Hu|].
      apply list_elem_of_singleton in Hb as ->. done.
    + split; [|done]. rewrite Hlen, string_length_append. simpl. lia.
Qed.

(** Generated user names: when every random index is below the length of
    the alphabet, the name has eight characters, all of them capital
    letters or digits; so it is never empty and the user list shows it,
    not the fallback name. *)
Theorem generated_username_shown (draw : nat → nat) :
  (∀ i, i < 8 → draw i < 36) →
  String.length (generateUsername draw) = 8 ∧
  (∀ a, a ∈ String.list_ascii_of_string (generateUsername draw) →
        a ∈ String.list_ascii_of_string username_chars) ∧
  ∀ (us : gmap string user) id col,
    us !! id = Some (mk_user (generateUsername draw) col) →
    e_username (entry_of us id) = generateUsername draw.
Proof.
  intros Hdraw.
  destruct (generateUsername_loop_shape draw EmptyString 0 8) as [Hlen Hall].
  { intros j Hj. apply Hdraw. lia. }
  { intros a Ha. simpl in Ha. by apply elem_of_nil in Ha. }
  fold (generateUsername draw) in Hlen, Hall.
  split; [done|]. split; [done|].
  intros us id col Hid. unfold entry_of. rewrite Hid. simpl.
  destruct (String.eqb_spec (generateUsername draw) EmptyString) as [He|]; [|done].
  rewrite He in Hlen. done.
Qed.

End Names.

(** ** The theorems above on concrete states *)

Ltac string_payload_here :=
  intros v Hv; cbn [snd] in Hv;
  first [discriminate Hv | injection Hv as <-; by eexists].

Ltac string_payloads :=
  repeat (constructor; [string_payload_here|]); constructor.

Lemma state_after_reached evs :
  Forall (λ e, string_payload e.2) evs →
  is_done (run (RS := spec_registry) evs initial) = true →
  reached_with_string_rooms (RS := spec_registry) (Scenario.state_after evs).
Proof.
  intros Hall Hdone.
  pose proof (done_returned (run (RS := spec_registry) evs initial)
                (initial, []) Hdone) as Hrun.
  destruct (returned _ _) as [st out] in Hrun.
  exists evs, out. split; [done|].
  unfold Scenario.state_after. by rewrite Hrun.
Qed.

Lemma both_drawn_reachable : reachable Cases.both_drawn.
Proof. apply state_after_reachable. Qed.

Lemma both_drawn_joined (sid : string) :
  sid = "u1"%string ∨ sid = "u2"%string →
  joined Cases.both_drawn sid "default"%string.
Proof.
  intros [-> | ->]; (split; [vm_compute; reflexivity | discriminate]).
Qed.

Lemma both_drawn_all_active i o :
  log Cases.both_drawn "default"%string !! i = Some o → Op.active o = true.
Proof.
  intros Hi. destruct i as [|[|i]]; vm_compute in Hi;
    [injection Hi as <-; reflexivity..|discriminate Hi].
Qed.

Lemma redo_semantics_witness :
  (handle (RS := spec_registry) "u1"%string Redo Cases.one_undone =
     Done (set_ops "default"%string
             (<[0 := Op.set_active true
                       (Op.set_active false
                          (new_op "u1"%string Scenario.stroke 0))]>
                (log Cases.one_undone "default"%string))
             Cases.one_undone,
           [ToRoom "default"%string
                   (sio_members "default"%string (sio_rooms Cases.one_undone))
                   (RedoOp (Op.opId (Op.set_active false
                                       (new_op "u1"%string Scenario.stroke 0))))])
   ∧ Op.active (Op.set_active true
                  (Op.set_active false
                     (new_op "u1"%string Scenario.stroke 0))) = true
   ∧ same_fixed (Op.set_active false (new_op "u1"%string Scenario.stroke 0))
       (Op.set_active true
          (Op.set_active false (new_op "u1"%string Scenario.stroke 0))))
  ∧ handle (RS := spec_registry) "u2"%string Redo Cases.one_undone =
      Done (Cases.one_undone, []).
Proof.
  pose proof (redo_semantics (RS := spec_registry) Cases.one_undone) as H.
  split.
  - destruct (H "u1"%string "default"%string) as [H1 _].
    + apply state_after_reachable.
    + split; [vm_compute; reflexivity | discriminate].
    + reflexivity.
    + apply (H1 0 (Op.set_active false (new_op "u1"%string Scenario.stroke 0))).
      * vm_compute. reflexivity.
      * reflexivity.
      * reflexivity.
      * intros j o' Hj. lia.
  - destruct (H "u2"%string "default"%string) as [_ H2].
    + apply state_after_reachable.
    + split; [vm_compute; reflexivity | discriminate].
    + reflexivity.
    + apply H2. intros i o Hi Hu.
      destruct i as [|[|i]].
      * vm_compute in Hi. injection Hi as <-. discriminate Hu.
      * vm_compute in Hi. injection Hi as <-. reflexivity.
      * apply lookup_lt_Some in Hi. vm_compute in Hi. lia.
Defined.

Lemma undo_redo_identity_witness :
  ∃ out,
    run (RS := spec_registry) [("u2"%string, Undo); ("u2"%string, Redo)]
        Cases.both_drawn = Done (Cases.both_drawn, out) ∧
    (out = [] ∨
     ∃ n, out = [ToRoom "default"%string
                   (sio_members "default"%string (sio_rooms Cases.both_drawn))
                   (UndoOp n);
                 ToRoom "default"%string
                   (sio_members "default"%string (sio_rooms Cases.both_drawn))
                   (RedoOp n)]).
Proof.
  apply (undo_redo_identity (RS := spec_registry)).
  - apply both_drawn_reachable.
  - apply both_drawn_joined. by right.
  - reflexivity.
  - intros i o Hi _. by eapply both_drawn_all_active.
Defined.

Lemma draw_undo_visible_witness :
  ∃ st' out,
    run (RS := spec_registry)
        [("u1"%string, Draw Scenario.bare_segment); ("u1"%string, Undo)]
        Cases.both_drawn = Done (st', out) ∧
    (∀ r, visible (log st' r) = visible (log Cases.both_drawn r)) ∧
    length (log st' "default"%string) =
      S (length (log Cases.both_drawn "default"%string)).
Proof.
  apply (draw_undo_visible (RS := spec_registry)).
  - apply both_drawn_reachable.
  - apply both_drawn_joined. by left.
  - reflexivity.
  - reflexivity.
Defined.

Lemma clear_leaves_nothing_active_witness :
  ∃ st1 out1,
    handle (RS := spec_registry) "u1"%string Clear Cases.both_drawn =
      Done (st1, out1) ∧
    (∀ i o, log st1 "default"%string !! i = Some o →
            Op.userId o = "u1"%string → Op.active o = false) ∧
    handle "u1"%string Clear st1 =
      Done (st1, [ToRoom "default"%string
                         (sio_members "default"%string (sio_rooms st1))
                         (ClearUserStrokes [])]) ∧
    handle "u1"%string Undo st1 = Done (st1, []).
Proof.
  apply (clear_leaves_nothing_active (RS := spec_registry)).
  - apply both_drawn_reachable.
  - apply both_drawn_joined. by left.
  - reflexivity.
Defined.

Lemma clear_then_redo_all_witness :
  ∃ ids,
    StronglySorted lt ids ∧
    (∀ n, n ∈ ids ↔
          ∃ i o, log Cases.both_drawn "default"%string !! i = Some o ∧
                 Op.userId o = "u1"%string ∧ Op.opId o = n) ∧
    run (RS := spec_registry)
        (("u1"%string, Clear) :: replicate (length ids) ("u1"%string, Redo))
        Cases.both_drawn =
      Done (Cases.both_drawn,
            ToRoom "default"%string
                   (sio_members "default"%string (sio_rooms Cases.both_drawn))
                   (ClearUserStrokes ids)
            :: ((λ n, ToRoom "default"%string
                        (sio_members "default"%string
                           (sio_rooms Cases.both_drawn))
                        (RedoOp n)) <$> ids)).
Proof.
  apply (clear_then_redo_all (RS := spec_registry)).
  - apply both_drawn_reachable.
  - apply both_drawn_joined. by left.
  - reflexivity.
  - intros i o Hi _. by eapply both_drawn_all_active.
Defined.

Lemma room_isolation_witness :
  log (set_ops "default"%string
         (deactivate_mine "u1"%string <$>
            log Cases.both_drawn "default"%string)
         Cases.both_drawn) "lobby"%string =
  log Cases.both_drawn "lobby"%string.
Proof.
  eapply (room_isolation (RS := spec_registry) Cases.both_drawn "u1"%string
            Clear _ _ "lobby"%string).
  - apply clear_result.
    + apply both_drawn_joined. by left.
    + apply (reachable_log _ "u1"%string).
      * apply both_drawn_reachable.
      * apply both_drawn_joined. by left.
      * reflexivity.
  - left. intros [Hc _]. vm_compute in Hc. discriminate Hc.
Defined.

Lemma requests_without_room_ignored_witness :
  run (RS := spec_registry)
      (pair "u1"%string <$>
         [Clear; Undo; Draw Scenario.stroke; Cursor Scenario.position; Redo])
      Cases.one_waiting =
    Done (Cases.one_waiting, []).
Proof.
  apply (requests_without_room_ignored (RS := spec_registry)).
  - intros (room & Hc & _). vm_compute in Hc. discriminate Hc.
  - repeat (constructor; [first [left; exact I | right; by eexists]|]).
    constructor.
Defined.

Lemma handler_throws_exactly_when_witness :
  handle (RS := spec_registry) "u1"%string (Draw Scenario.stroke)
         Cases.in_constructor = Throws
  ∧ handle (RS := spec_registry) "u1"%string (Draw Scenario.stroke)
           Cases.both_drawn ≠ Throws.
Proof.
  split.
  - apply (handler_throws_exactly_when (RS := spec_registry)).
    + apply state_after_reached; [string_payloads|vm_compute; reflexivity].
    + intros v Hv. discriminate Hv.
    + exists "constructor"%string. split.
      * split; [vm_compute; reflexivity | discriminate].
      * right. exists (IFunction 1). split; [reflexivity|].
        right. left. exists Scenario.stroke. split; reflexivity.
  - intros Hthrows.
    apply (handler_throws_exactly_when (RS := spec_registry)) in Hthrows
      as (room & [Hc _] & [(pos & Heq & _)|(v & Hp & _)]).
    + discriminate Heq.
    + vm_compute in Hc. injection Hc as <-. discriminate Hp.
    + apply state_after_reached; [string_payloads|vm_compute; reflexivity].
    + intros v Hv. discriminate Hv.
Defined.

Lemma one_named_room_witness :
  joined Cases.moved "u1"%string "default"%string ∧
  ∀ r', r' ≠ "default"%string → r' ≠ EmptyString → r' ≠ "u1"%string →
        "u1"%string ∉ sio_members r' (sio_rooms Cases.moved).
Proof.
  apply (one_named_room (RS := spec_registry)).
  - apply state_after_reached; [string_payloads|vm_compute; reflexivity].
  - by_computation.
  - discriminate.
  - discriminate.
Defined.

Lemma disconnect_effects_witness :
  ∃ st' out,
    handle (RS := spec_registry) "u1"%string Disconnect Cases.both_drawn =
      Done (st', out) ∧
    roomsOperations st' = roomsOperations Cases.both_drawn ∧
    currentRoom st' !! "u1"%string = None ∧ users st' !! "u1"%string = None ∧
    (∀ r, "u1"%string ∉ sio_members r (sio_rooms st')) ∧
    (∀ room, joined Cases.both_drawn "u1"%string room →
       out = [ToRoom room
                (sio_members room (sio_rooms Cases.both_drawn)
                   ∖ {[ "u1"%string ]})
                (RemoveCursor "u1"%string);
              ToRoom room
                (sio_members room (sio_rooms Cases.both_drawn)
                   ∖ {[ "u1"%string ]})
                (UserList (entry_of (users Cases.both_drawn) <$>
                           listClients room
                             (removeClient room "u1"%string
                                (roomStore Cases.both_drawn))))]) ∧
    ((¬ ∃ room, joined Cases.both_drawn "u1"%string room) → out = []).
Proof.
  apply (disconnect_effects (RS := spec_registry)).
  - apply both_drawn_reachable.
  - exists (Some "default"%string). vm_compute. reflexivity.
Defined.

Lemma rejoin_same_room_witness :
  ∃ st' rest,
    handle (RS := spec_registry) "u2"%string
           (JoinRoom (JStr "default"%string)) Cases.both_drawn =
      Done (st', ToSocket "u2"%string
                   (CanvasHistory
                      (read_ops (roomsOperations Cases.both_drawn)
                                "default"%string))
                 :: rest) ∧
    (object_prototype "default"%string = None →
     read_ops (roomsOperations Cases.both_drawn) "default"%string =
       OpsArray (log Cases.both_drawn "default"%string)) ∧
    roomsOperations st' = roomsOperations Cases.both_drawn ∧
    currentRoom st' = currentRoom Cases.both_drawn ∧
    sio_rooms st' = sio_rooms Cases.both_drawn ∧
    users st' = users Cases.both_drawn.
Proof.
  apply (rejoin_same_room (RS := spec_registry)).
  - apply both_drawn_reachable.
  - vm_compute. reflexivity.
Defined.

Lemma late_join_run :
  ∃ out, run (RS := spec_registry) Cases.late_join initial =
           Done (Scenario.state_after Cases.late_join, out).
Proof.
  pose proof (done_returned (run (RS := spec_registry) Cases.late_join initial)
                (initial, []) eq_refl) as Hrun.
  destruct (returned _ _) as [st out] eqn:Hret in Hrun.
  exists out. unfold Scenario.state_after. by rewrite Hrun.
Qed.

Lemma client_copy_follows_log_witness :
  ∃ out,
    run (RS := spec_registry) Cases.late_join initial =
      Done (Scenario.state_after Cases.late_join, out) ∧
    Client.sync "u2"%string out [] =
      log (Scenario.state_after Cases.late_join) "default"%string.
Proof.
  destruct late_join_run as [out Hrun]. exists out. split; [exact Hrun|].
  apply (client_copy_follows_log (RS := spec_registry) initial "u2"%string []
           Cases.late_join _ out).
  - exists [], []. split; [constructor|reflexivity].
  - intros r Hc. vm_compute in Hc. discriminate Hc.
  - intros sid Hc. vm_compute in Hc. discriminate Hc.
  - repeat (constructor;
            [split; [string_payload_here|unfold not_join_of; discriminate]|]).
    constructor.
  - exact Hrun.
  - vm_compute. reflexivity.
  - reflexivity.
Defined.

Lemma clients_in_a_room_agree_witness :
  ∃ out,
    Client.sync "u1"%string out [] =
      log (Scenario.state_after Cases.late_join) "default"%string ∧
    Client.sync "u2"%string out [] =
      log (Scenario.state_after Cases.late_join) "default"%string ∧
    visible (Client.sync "u1"%string out []) =
      visible (Client.sync "u2"%string out []).
Proof.
  destruct late_join_run as [out Hrun]. exists out.
  apply (clients_in_a_room_agree (RS := spec_registry) Cases.late_join
           (Scenario.state_after Cases.late_join) out).
  - exact Hrun.
  - repeat (constructor;
            [split;
             [string_payload_here|split; unfold not_join_of; discriminate]|]).
    constructor.
  - reflexivity.
  - vm_compute. reflexivity.
  - vm_compute. reflexivity.
Defined.

Lemma generated_username_shown_witness :
  String.length (generateUsername Cases.every_fourth) = 8 ∧
  generateUsername Cases.every_fourth = "AEIMQUY2"%string.
Proof.
  split; [|reflexivity].
  apply (generated_username_shown Cases.every_fourth).
  intros i Hi. unfold Cases.every_fourth. lia.
Defined.
